(** * Speech session controller (src/hooks/useSpeechRecognition.ts)

    A shallow embedding of the [useSpeechRecognition] hook: the refs and
    React state cells of the hook become one record, the engine callbacks
    and the public methods become computations in a small state-and-exception
    monad, and [setTimeout]/[clearTimeout] act on an explicit table of pending
    timers driven by a clock. *)

From Stdlib Require Import Ascii String List Bool Arith ZArith Lia.
Import ListNotations.

Local Open Scope string_scope.
Local Open Scope list_scope.
Local Open Scope nat_scope.

(** ** Data *)

(** The three primitives of the browser engine the hook calls. *)
Inductive primitive : Type := PStart | PAbort | PStop.

Definition primitive_eqb (p q : primitive) : bool :=
  match p, q with
  | PStart, PStart | PAbort, PAbort | PStop, PStop => true
  | _, _ => false
  end.

(** One call of an engine primitive.  Besides the primitive, an entry keeps
    what the two transcripts were when the call was made, as the current
    render showed them ([seen_]) and as last written by a state setter
    ([written_]); these are history variables, the source has no such
    record. *)
Record engine_call : Type := {
  prim : primitive;
  seen_transcript : string;
  seen_finalTranscript : string;
  written_transcript : string;
  written_finalTranscript : string
}.

(** Calls of the option callbacks [onResult], [onEnd], [onError]. *)
Inductive callback : Type :=
| OnResult (text : string) (isFinal : bool)
| OnEnd
| OnError (kind : string).

(** The two [setTimeout] continuations of the hook. *)
Inductive timer_kind : Type := RestartTimer | InactivityTimer.

Record timer : Type := {
  tid : nat;
  due : Z;
  kind : timer_kind
}.

(** [UseSpeechRecognitionOptions].  A callback option is either supplied or
    not; the hook calls it through [?.], so only its presence matters. *)
Record options : Type := {
  continuous : bool;
  interimResults : bool;
  lang : string;
  timeout : Z;
  onResult : bool;
  onEnd : bool;
  onError : bool
}.

(** The defaults of the destructuring at the top of the hook, with all three
    callbacks supplied. *)
Definition default_options : options :=
  {| continuous := true; interimResults := true; lang := "en-US";
     timeout := 3000; onResult := true; onEnd := true; onError := true |}.

(** One entry of [event.results]: its [isFinal] flag and [result[0].transcript]
    (the engine is configured with [maxAlternatives = 1]). *)
Record recognition_result : Type := {
  isFinal : bool;
  alt_transcript : string
}.

Record result_event : Type := {
  resultIndex : nat;
  results : list recognition_result
}.

(** The defaults with the inactivity watchdog switched off. *)
Definition no_watchdog_options : options :=
  {| continuous := true; interimResults := true; lang := "en-US";
     timeout := 0; onResult := true; onEnd := true; onError := true |}.

(** Two sample events: one interim hypothesis, one final hypothesis. *)
Definition interim_mil : result_event :=
  {| resultIndex := 0;
     results := [{| isFinal := false; alt_transcript := "mil" |}] |}.

Definition final_milk : result_event :=
  {| resultIndex := 0;
     results := [{| isFinal := true; alt_transcript := "milk" |}] |}.

(** The cells of the hook ([useState] and [useRef]), followed by the
    environment they act on: the clock and timer table, and the logs of
    engine calls, callback calls and console lines.  [recognitionRef] records
    whether [recognitionRef.current] holds an engine; a timer handle is
    [None] for [null].  A [useState] cell holds the value last written to it:
    React queues the write and shows it at the next render.  For the two
    transcripts the record also keeps, in [rendered_transcript] and
    [rendered_finalTranscript], what the current render shows. *)
Record state : Type := {
  isSupported : bool;
  isListening : bool;
  transcript : string;
  finalTranscript : string;
  manuallyStopped : bool;
  isListeningRef : bool;
  manuallyStoppedRef : bool;
  forceStoppedRef : bool;
  stopRequestedRef : bool;
  recognitionRef : bool;
  inactivityTimeoutRef : option nat;
  audioendTimeoutRef : option nat;
  now : Z;
  next_timer : nat;
  pending : list timer;
  calls : list engine_call;
  callbacks : list callback;
  console : list string;
  rendered_transcript : string;
  rendered_finalTranscript : string
}.

Definition set_isListening (v : bool) (s : state) : state :=
  Build_state (isSupported s) v (transcript s) (finalTranscript s)
    (manuallyStopped s) (isListeningRef s) (manuallyStoppedRef s)
    (forceStoppedRef s) (stopRequestedRef s) (recognitionRef s)
    (inactivityTimeoutRef s) (audioendTimeoutRef s) (now s) (next_timer s)
    (pending s) (calls s) (callbacks s) (console s) (rendered_transcript s)
    (rendered_finalTranscript s).

Definition set_transcript (v : string) (s : state) : state :=
  Build_state (isSupported s) (isListening s) v (finalTranscript s)
    (manuallyStopped s) (isListeningRef s) (manuallyStoppedRef s)
    (forceStoppedRef s) (stopRequestedRef s) (recognitionRef s)
    (inactivityTimeoutRef s) (audioendTimeoutRef s) (now s) (next_timer s)
    (pending s) (calls s) (callbacks s) (console s) (rendered_transcript s)
    (rendered_finalTranscript s).

Definition set_finalTranscript (v : string) (s : state) : state :=
  Build_state (isSupported s) (isListening s) (transcript s) v
    (manuallyStopped s) (isListeningRef s) (manuallyStoppedRef s)
    (forceStoppedRef s) (stopRequestedRef s) (recognitionRef s)
    (inactivityTimeoutRef s) (audioendTimeoutRef s) (now s) (next_timer s)
    (pending s) (calls s) (callbacks s) (console s) (rendered_transcript s)
    (rendered_finalTranscript s).

Definition set_manuallyStopped (v : bool) (s : state) : state :=
  Build_state (isSupported s) (isListening s) (transcript s) (finalTranscript
    s) v (isListeningRef s) (manuallyStoppedRef s) (forceStoppedRef s)
    (stopRequestedRef s) (recognitionRef s) (inactivityTimeoutRef s)
    (audioendTimeoutRef s) (now s) (next_timer s) (pending s) (calls s)
    (callbacks s) (console s) (rendered_transcript s)
    (rendered_finalTranscript s).

Definition set_isListeningRef (v : bool) (s : state) : state :=
  Build_state (isSupported s) (isListening s) (transcript s) (finalTranscript
    s) (manuallyStopped s) v (manuallyStoppedRef s) (forceStoppedRef s)
    (stopRequestedRef s) (recognitionRef s) (inactivityTimeoutRef s)
    (audioendTimeoutRef s) (now s) (next_timer s) (pending s) (calls s)
    (callbacks s) (console s) (rendered_transcript s)
    (rendered_finalTranscript s).

Definition set_manuallyStoppedRef (v : bool) (s : state) : state :=
  Build_state (isSupported s) (isListening s) (transcript s) (finalTranscript
    s) (manuallyStopped s) (isListeningRef s) v (forceStoppedRef s)
    (stopRequestedRef s) (recognitionRef s) (inactivityTimeoutRef s)
    (audioendTimeoutRef s) (now s) (next_timer s) (pending s) (calls s)
    (callbacks s) (console s) (rendered_transcript s)
    (rendered_finalTranscript s).

Definition set_forceStoppedRef (v : bool) (s : state) : state :=
  Build_state (isSupported s) (isListening s) (transcript s) (finalTranscript
    s) (manuallyStopped s) (isListeningRef s) (manuallyStoppedRef s) v
    (stopRequestedRef s) (recognitionRef s) (inactivityTimeoutRef s)
    (audioendTimeoutRef s) (now s) (next_timer s) (pending s) (calls s)
    (callbacks s) (console s) (rendered_transcript s)
    (rendered_finalTranscript s).

Definition set_stopRequestedRef (v : bool) (s : state) : state :=
  Build_state (isSupported s) (isListening s) (transcript s) (finalTranscript
    s) (manuallyStopped s) (isListeningRef s) (manuallyStoppedRef s)
    (forceStoppedRef s) v (recognitionRef s) (inactivityTimeoutRef s)
    (audioendTimeoutRef s) (now s) (next_timer s) (pending s) (calls s)
    (callbacks s) (console s) (rendered_transcript s)
    (rendered_finalTranscript s).

Definition set_inactivityTimeoutRef (v : option nat) (s : state) : state :=
  Build_state (isSupported s) (isListening s) (transcript s) (finalTranscript
    s) (manuallyStopped s) (isListeningRef s) (manuallyStoppedRef s)
    (forceStoppedRef s) (stopRequestedRef s) (recognitionRef s) v
    (audioendTimeoutRef s) (now s) (next_timer s) (pending s) (calls s)
    (callbacks s) (console s) (rendered_transcript s)
    (rendered_finalTranscript s).

Definition set_audioendTimeoutRef (v : option nat) (s : state) : state :=
  Build_state (isSupported s) (isListening s) (transcript s) (finalTranscript
    s) (manuallyStopped s) (isListeningRef s) (manuallyStoppedRef s)
    (forceStoppedRef s) (stopRequestedRef s) (recognitionRef s)
    (inactivityTimeoutRef s) v (now s) (next_timer s) (pending s) (calls s)
    (callbacks s) (console s) (rendered_transcript s)
    (rendered_finalTranscript s).

Definition set_now (v : Z) (s : state) : state :=
  Build_state (isSupported s) (isListening s) (transcript s) (finalTranscript
    s) (manuallyStopped s) (isListeningRef s) (manuallyStoppedRef s)
    (forceStoppedRef s) (stopRequestedRef s) (recognitionRef s)
    (inactivityTimeoutRef s) (audioendTimeoutRef s) v (next_timer s) (pending
    s) (calls s) (callbacks s) (console s) (rendered_transcript s)
    (rendered_finalTranscript s).

Definition set_next_timer (v : nat) (s : state) : state :=
  Build_state (isSupported s) (isListening s) (transcript s) (finalTranscript
    s) (manuallyStopped s) (isListeningRef s) (manuallyStoppedRef s)
    (forceStoppedRef s) (stopRequestedRef s) (recognitionRef s)
    (inactivityTimeoutRef s) (audioendTimeoutRef s) (now s) v (pending s)
    (calls s) (callbacks s) (console s) (rendered_transcript s)
    (rendered_finalTranscript s).

Definition set_pending (v : list timer) (s : state) : state :=
  Build_state (isSupported s) (isListening s) (transcript s) (finalTranscript
    s) (manuallyStopped s) (isListeningRef s) (manuallyStoppedRef s)
    (forceStoppedRef s) (stopRequestedRef s) (recognitionRef s)
    (inactivityTimeoutRef s) (audioendTimeoutRef s) (now s) (next_timer s) v
    (calls s) (callbacks s) (console s) (rendered_transcript s)
    (rendered_finalTranscript s).

Definition set_calls (v : list engine_call) (s : state) : state :=
  Build_state (isSupported s) (isListening s) (transcript s) (finalTranscript
    s) (manuallyStopped s) (isListeningRef s) (manuallyStoppedRef s)
    (forceStoppedRef s) (stopRequestedRef s) (recognitionRef s)
    (inactivityTimeoutRef s) (audioendTimeoutRef s) (now s) (next_timer s)
    (pending s) v (callbacks s) (console s) (rendered_transcript s)
    (rendered_finalTranscript s).

Definition set_callbacks (v : list callback) (s : state) : state :=
  Build_state (isSupported s) (isListening s) (transcript s) (finalTranscript
    s) (manuallyStopped s) (isListeningRef s) (manuallyStoppedRef s)
    (forceStoppedRef s) (stopRequestedRef s) (recognitionRef s)
    (inactivityTimeoutRef s) (audioendTimeoutRef s) (now s) (next_timer s)
    (pending s) (calls s) v (console s) (rendered_transcript s)
    (rendered_finalTranscript s).

Definition set_console (v : list string) (s : state) : state :=
  Build_state (isSupported s) (isListening s) (transcript s) (finalTranscript
    s) (manuallyStopped s) (isListeningRef s) (manuallyStoppedRef s)
    (forceStoppedRef s) (stopRequestedRef s) (recognitionRef s)
    (inactivityTimeoutRef s) (audioendTimeoutRef s) (now s) (next_timer s)
    (pending s) (calls s) (callbacks s) v (rendered_transcript s)
    (rendered_finalTranscript s).

(** A render: the hook shows the transcripts as last written. *)
Definition render (s : state) : state :=
  Build_state (isSupported s) (isListening s) (transcript s) (finalTranscript
    s) (manuallyStopped s) (isListeningRef s) (manuallyStoppedRef s)
    (forceStoppedRef s) (stopRequestedRef s) (recognitionRef s)
    (inactivityTimeoutRef s) (audioendTimeoutRef s) (now s) (next_timer s)
    (pending s) (calls s) (callbacks s) (console s) (transcript s)
    (finalTranscript s).

(** The default hook after its effect ran on a runtime with an engine and
    [startListening()] was called once, the engine's [start] returning. *)
Definition listening : state :=
  {| isSupported := true;
     isListening := true;
     transcript := "";
     finalTranscript := "";
     manuallyStopped := false;
     isListeningRef := true;
     manuallyStoppedRef := false;
     forceStoppedRef := false;
     stopRequestedRef := false;
     recognitionRef := true;
     inactivityTimeoutRef := None;
     audioendTimeoutRef := None;
     now := 0%Z;
     next_timer := 1;
     pending := [];
     calls := [{| prim := PStart; seen_transcript := "";
                  seen_finalTranscript := "";
                  written_transcript := "";
                  written_finalTranscript := "" |}];
     callbacks := [];
     console := [];
     rendered_transcript := "";
     rendered_finalTranscript := "" |}.

(** The same with a restart timer in flight. *)
Definition listening_with_restart_in_flight : state :=
  set_next_timer 2
    (set_pending [{| tid := 1; due := 50%Z; kind := RestartTimer |}]
       listening).

(** What the caller, the engine, the clock and React can do to the hook. *)
Inductive event : Type :=
| StartListening
| StopListening
| ResetTranscript
| AudioEnd
| Result (ev : result_event)
| Error (kind : string)
| End
| Elapse (ms : Z)
| Cleanup
| Render.

(** Engines used in the scenarios: one whose primitives never throw and one
    whose primitives always do.  An engine is given by which calls throw, as
    a function of how many calls were made before and of the primitive. *)
Definition never_throws : nat -> primitive -> bool := fun _ _ => false.
Definition always_throws : nat -> primitive -> bool := fun _ _ => true.

(** ** A state monad with exceptions *)

Inductive completion (A : Type) : Type :=
| Normal (a : A)
| Thrown.
Arguments Normal {A} a.
Arguments Thrown {A}.

Definition M (A : Type) : Type := state -> completion A * state.

Definition ret {A : Type} (a : A) : M A := fun s => (Normal a, s).

Definition bind {A B : Type} (m : M A) (k : A -> M B) : M B :=
  fun s =>
    match m s with
    | (Normal a, s') => k a s'
    | (Thrown, s') => (Thrown, s')
    end.

Definition read {A : Type} (f : state -> A) : M A :=
  fun s => (Normal (f s), s).

Definition modify (f : state -> state) : M unit :=
  fun s => (Normal tt, f s).

(** [try { body } catch { handler }] *)
Definition try_catch (body handler : M unit) : M unit :=
  fun s =>
    match body s with
    | (Normal u, s') => (Normal u, s')
    | (Thrown, s') => handler s'
    end.

Definition when (b : bool) (m : M unit) : M unit :=
  if b then m else ret tt.

Declare Scope hook_scope.
Delimit Scope hook_scope with hook.
Notation "x <- m ;; k" := (bind m (fun x => k))
  (at level 61, m at next level, right associativity) : hook_scope.
Notation "m ;; k" := (bind m (fun _ => k))
  (at level 61, right associativity) : hook_scope.
Local Open Scope hook_scope.

(** JavaScript truthiness of a string: every string but the empty one. *)
Definition truthy (t : string) : bool :=
  match t with
  | EmptyString => false
  | String _ _ => true
  end.

(** The truthiness test on a timer handle. *)
Definition is_set (h : option nat) : bool :=
  match h with
  | Some _ => true
  | None => false
  end.

(** ** Timers *)

(** The delay of [setTimeout] is a 32-bit integer for the host: the number
    given is reduced modulo 2^32 into the signed range, and a negative result
    counts as 0. *)
Definition host_delay (delay : Z) : Z :=
  Z.max 0 ((delay + 2147483648) mod 4294967296 - 2147483648).

Definition setTimeout (k : timer_kind) (delay : Z) : M nat :=
  fun s =>
    let id := next_timer s in
    (Normal id,
     set_next_timer (S id)
       (set_pending
          (pending s ++ [{| tid := id; due := (now s + host_delay delay)%Z;
                            kind := k |}]) s)).

Definition drop_timer (id : nat) (l : list timer) : list timer :=
  filter (fun t => negb (tid t =? id)) l.

Arguments drop_timer : simpl never.

Definition clearTimeout (id : nat) : M unit :=
  modify (fun s => set_pending (drop_timer id (pending s)) s).

(** [if (ref.current) clearTimeout(ref.current)] *)
Definition clear_handle (h : option nat) : M unit :=
  match h with
  | Some id => clearTimeout id
  | None => ret tt
  end.

(** The timer that fires first: smallest due time, ties by creation order. *)
Definition before (a b : timer) : bool :=
  (due a <? due b)%Z || ((due a =? due b)%Z && (tid a <=? tid b)).

Fixpoint earliest (l : list timer) : option timer :=
  match l with
  | [] => None
  | t :: r =>
      match earliest r with
      | None => Some t
      | Some u => Some (if before t u then t else u)
      end
  end.

Definition is_due (limit : Z) (t : timer) : bool := (due t <=? limit)%Z.

(** ** The [result] loop *)

(** [event.results] from [event.resultIndex] on: what the loop visits. *)
Definition new_results (ev : result_event) : list recognition_result :=
  skipn (resultIndex ev) (results ev).

(** The [for] loop of the [result] listener, on the pair
    [(finalText, interimTranscript)] of its two accumulators. *)
Fixpoint accumulate (rs : list recognition_result) (acc : string * string)
  : string * string :=
  match rs with
  | [] => acc
  | r :: rs' =>
      accumulate rs'
        (if isFinal r
         then (String.append (fst acc) (alt_transcript r), snd acc)
         else (fst acc, String.append (snd acc) (alt_transcript r)))
  end.

Definition finalText (ev : result_event) : string :=
  fst (accumulate (new_results ev) ("", "")).

Definition interimTranscript (ev : result_event) : string :=
  snd (accumulate (new_results ev) ("", "")).

(** The texts of the hypotheses of one kind, joined in order: the reading of
    "the concatenation of the event's interim (final) hypotheses". *)
Definition joined (final : bool) (rs : list recognition_result) : string :=
  String.concat ""
    (map alt_transcript (filter (fun r => Bool.eqb (isFinal r) final) rs)).

Definition only_interim (ev : result_event) : bool :=
  forallb (fun r => negb (isFinal r)) (new_results ev).

Definition only_final (ev : result_event) : bool :=
  forallb isFinal (new_results ev).

(** ** Effects over other stores

    The same state-and-exception monad over an arbitrary state: a rejected
    promise that is awaited, or a thrown exception, is [Thrown]. *)

Definition Eff (S A : Type) : Type := S -> completion A * S.

Definition eff_ret {S A : Type} (a : A) : Eff S A := fun st => (Normal a, st).

Definition eff_bind {S A B : Type} (m : Eff S A) (k : A -> Eff S B)
  : Eff S B :=
  fun st =>
    match m st with
    | (Normal a, st') => k a st'
    | (Thrown, st') => (Thrown, st')
    end.

Definition eff_throw {S A : Type} : Eff S A := fun st => (Thrown, st).

(** [try { return await body } catch { handler }] *)
Definition eff_catch {S A : Type} (body handler : Eff S A) : Eff S A :=
  fun st =>
    match body st with
    | (Normal a, st') => (Normal a, st')
    | (Thrown, st') => handler st'
    end.

(** [try { const x = await m; return k(x) } catch { handler }] where [k(x)]
    is a promise that is returned without being awaited: a rejection of [m]
    goes to the handler, a rejection of [k(x)] escapes the function. *)
Definition eff_await_or {S A B : Type} (m : Eff S A) (k : A -> Eff S B)
           (handler : Eff S B) : Eff S B :=
  fun st =>
    match m st with
    | (Normal a, st') => k a st'
    | (Thrown, st') => handler st'
    end.

Declare Scope eff_scope.
Delimit Scope eff_scope with eff.
Notation "x <- m ;; k" := (eff_bind m (fun x => k))
  (at level 61, m at next level, right associativity) : eff_scope.
Notation "m ;; k" := (eff_bind m (fun _ => k))
  (at level 61, right associativity) : eff_scope.

(** ** API base URL (lib/api.ts) *)

(** The regular expression [/\/+$/] matched at the start of [u]: [u] is one
    or more slashes and nothing else.  The slash is one byte and one UTF-16
    unit, and occurs in the encoding of no other character. *)
Fixpoint slashes_to_end (u : string) : bool :=
  match u with
  | EmptyString => false
  | String c r =>
      Ascii.eqb c "/"%char &&
      match r with
      | EmptyString => true
      | String _ _ => slashes_to_end r
      end
  end.

(** [url.replace(/\/+$/, '')]: the expression is tried at each index from the
    left and the first match, which runs to the end, is removed. *)
Fixpoint normalizeBaseUrl (url : string) : string :=
  match url with
  | EmptyString => EmptyString
  | String c r =>
      if slashes_to_end url then EmptyString
      else String c (normalizeBaseUrl r)
  end.

(** A string of [n] slashes. *)
Fixpoint slashes (n : nat) : string :=
  match n with
  | 0 => EmptyString
  | S n' => String "/"%char (slashes n')
  end.

Fixpoint ends_with_slash (u : string) : bool :=
  match u with
  | EmptyString => false
  | String c EmptyString => Ascii.eqb c "/"%char
  | String _ r => ends_with_slash r
  end.

(** ** Authentication store (lib/indexedDB.ts) *)

Inductive idb_op : Type := IdbOpen | IdbGet | IdbPut | IdbDelete.

(** [AuthData]: both fields are optional; [user] is of type [any]. *)
Record AuthData {User : Type} : Type := {
  token : option string;
  user : option User
}.
Arguments AuthData : clear implicits.

(** The object store: the value under the key ['auth'], if any; the number
    of requests made so far; the console. *)
Record idb {User : Type} : Type := {
  auth_entry : option (AuthData User);
  idb_ops : nat;
  idb_console : list string
}.
Arguments idb : clear implicits.

(** [x || null] on an optional string. *)
Definition or_null (t : option string) : option string :=
  match t with
  | Some v => if truthy v then Some v else None
  | None => None
  end.

Section AuthStoreCode.

Context {User : Type}.

(** Which requests fail, by their rank and kind. *)
Variable idb_fails : nat -> idb_op -> bool.

(** Which stored users are truthy values. *)
Variable user_truthy : User -> bool.

Local Open Scope eff_scope.

Definition idb_log (line : string) : Eff (idb User) unit :=
  fun st =>
    (Normal tt,
     {| auth_entry := auth_entry st; idb_ops := idb_ops st;
        idb_console := idb_console st ++ [line] |}).

(** One request to IndexedDB: its promise resolves or rejects. *)
Definition idb_request (op : idb_op) : Eff (idb User) unit :=
  fun st =>
    let st' := {| auth_entry := auth_entry st; idb_ops := S (idb_ops st);
                  idb_console := idb_console st |} in
    if idb_fails (idb_ops st) op then (Thrown, st') else (Normal tt, st').

Definition idb_write (e : option (AuthData User)) : Eff (idb User) unit :=
  fun st =>
    (Normal tt,
     {| auth_entry := e; idb_ops := idb_ops st;
        idb_console := idb_console st |}).

Definition openDB : Eff (idb User) unit := idb_request IdbOpen.

Definition empty_auth : AuthData User := {| token := None; user := None |}.

(** [store.get('auth')], resolved with [request.result || {}]. *)
Definition store_get : Eff (idb User) (AuthData User) :=
  idb_request IdbGet ;;
  fun st =>
    (Normal (match auth_entry st with
             | Some d => d
             | None => empty_auth
             end), st).

(** [store.put(authData, 'auth')] *)
Definition store_put (d : AuthData User) : Eff (idb User) unit :=
  idb_request IdbPut ;; idb_write (Some d).

(** [store.delete('auth')] *)
Definition store_delete : Eff (idb User) unit :=
  idb_request IdbDelete ;; idb_write None.

Definition getAuthData : Eff (idb User) (AuthData User) :=
  eff_await_or openDB
    (fun _ => store_get)
    (idb_log "Error getting auth data from IndexedDB:" ;; eff_ret empty_auth).

Definition setAuthToken (t : string) : Eff (idb User) unit :=
  eff_await_or openDB
    (fun _ =>
       eff_await_or getAuthData
         (fun d => store_put {| token := Some t; user := user d |})
         (idb_log "Error setting auth token in IndexedDB:"))
    (idb_log "Error setting auth token in IndexedDB:").

Definition getAuthToken : Eff (idb User) (option string) :=
  eff_catch
    (d <- getAuthData ;; eff_ret (or_null (token d)))
    (idb_log "Error getting auth token from IndexedDB:" ;; eff_ret None).

Definition clearAuthToken : Eff (idb User) unit :=
  eff_await_or openDB
    (fun _ =>
       eff_await_or getAuthData
         (fun d => store_put {| token := None; user := user d |})
         (idb_log "Error clearing auth token from IndexedDB:"))
    (idb_log "Error clearing auth token from IndexedDB:").

Definition setUserData (u : User) : Eff (idb User) unit :=
  eff_await_or openDB
    (fun _ =>
       eff_await_or getAuthData
         (fun d => store_put {| token := token d; user := Some u |})
         (idb_log "Error setting user data in IndexedDB:"))
    (idb_log "Error setting user data in IndexedDB:").

(** [x || null] on an optional user. *)
Definition user_or_null (u : option User) : option User :=
  match u with
  | Some v => if user_truthy v then Some v else None
  | None => None
  end.

Definition getUserData : Eff (idb User) (option User) :=
  eff_catch
    (d <- getAuthData ;; eff_ret (user_or_null (user d)))
    (idb_log "Error getting user data from IndexedDB:" ;; eff_ret None).

Definition clearUserData : Eff (idb User) unit :=
  eff_await_or openDB
    (fun _ =>
       eff_await_or getAuthData
         (fun d => store_put {| token := token d; user := None |})
         (idb_log "Error clearing user data from IndexedDB:"))
    (idb_log "Error clearing user data from IndexedDB:").

Definition isAuthenticated : Eff (idb User) bool :=
  t <- getAuthToken ;;
  eff_ret (match t with Some _ => true | None => false end).

Definition clearAllAuthData : Eff (idb User) unit :=
  eff_await_or openDB
    (fun _ => store_delete)
    (idb_log "Error clearing all auth data from IndexedDB:").

End AuthStoreCode.

(** An IndexedDB none of whose requests fails. *)
Definition idb_reliable : nat -> idb_op -> bool := fun _ _ => false.

(** ** Local storage (lib/storage.ts) *)

(** [STORAGE_KEYS] *)
Definition CURRENT_LIST : string := "voice-shopper-current-list".
Definition HISTORY : string := "voice-shopper-history".
Definition SAVED_RECIPES : string := "voice-shopper-saved-recipes".

(** [localStorage]: its items, the number of accesses so far, the console. *)
Record local_storage : Type := {
  ls_items : string -> option string;
  ls_ops : nat;
  ls_console : list string
}.

Definition ls_empty : local_storage :=
  {| ls_items := fun _ => None; ls_ops := 0; ls_console := [] |}.

Section StorageCode.

Context {ShoppingItem SavedRecipe : Type}.

(** [recipe.id] *)
Variable recipe_id : SavedRecipe -> string.

(** [JSON.stringify] and [JSON.parse] at the two types stored; [None] is a
    [SyntaxError].  A text that parses is taken to hold an array of the
    expected type, as the casts of the source assume: a text that parses to
    another value ([null], a string, a number) has no counterpart here, and
    the statements that read a stored text say which texts they cover. *)
Variable stringify_items : list ShoppingItem -> string.
Variable parse_items : string -> option (list ShoppingItem).
Variable stringify_recipes : list SavedRecipe -> string.
Variable parse_recipes : string -> option (list SavedRecipe).

(** Which accesses to [localStorage] throw (storage disabled, quota
    exceeded), by their rank. *)
Variable ls_throws : nat -> bool.

Local Open Scope eff_scope.

Definition ls_log (line : string) : Eff local_storage unit :=
  fun st =>
    (Normal tt,
     {| ls_items := ls_items st; ls_ops := ls_ops st;
        ls_console := ls_console st ++ [line] |}).

Definition ls_access : Eff local_storage unit :=
  fun st =>
    let st' := {| ls_items := ls_items st; ls_ops := S (ls_ops st);
                  ls_console := ls_console st |} in
    if ls_throws (ls_ops st) then (Thrown, st') else (Normal tt, st').

Definition getItem (k : string) : Eff local_storage (option string) :=
  ls_access ;; fun st => (Normal (ls_items st k), st).

Definition setItem (k v : string) : Eff local_storage unit :=
  ls_access ;;
  fun st =>
    (Normal tt,
     {| ls_items := fun k' => if (k' =? k)%string then Some v
                              else ls_items st k';
        ls_ops := ls_ops st; ls_console := ls_console st |}).

Definition removeItem (k : string) : Eff local_storage unit :=
  ls_access ;;
  fun st =>
    (Normal tt,
     {| ls_items := fun k' => if (k' =? k)%string then None
                              else ls_items st k';
        ls_ops := ls_ops st; ls_console := ls_console st |}).

Definition JSON_parse {A : Type} (parse : string -> option A) (t : string)
  : Eff local_storage A :=
  match parse t with
  | Some a => eff_ret a
  | None => eff_throw
  end.

Definition saveCurrentList (items : list ShoppingItem)
  : Eff local_storage unit :=
  eff_catch
    (setItem CURRENT_LIST (stringify_items items))
    (ls_log "Failed to save current list to localStorage:").

Definition loadCurrentList : Eff local_storage (option (list ShoppingItem)) :=
  eff_catch
    (stored <- getItem CURRENT_LIST ;;
     match stored with
     | Some t =>
         if truthy t
         then items <- JSON_parse parse_items t ;; eff_ret (Some items)
         else eff_ret None
     | None => eff_ret None
     end)
    (ls_log "Failed to load current list from localStorage:" ;;
     eff_ret None).

Definition loadRecipes : Eff local_storage (list SavedRecipe) :=
  eff_catch
    (stored <- getItem SAVED_RECIPES ;;
     match stored with
     | Some t => if truthy t then JSON_parse parse_recipes t else eff_ret []
     | None => eff_ret []
     end)
    (ls_log "Failed to load recipes from localStorage:" ;; eff_ret []).

Definition saveRecipe (recipe : SavedRecipe) : Eff local_storage unit :=
  eff_catch
    (existing <- loadRecipes ;;
     setItem SAVED_RECIPES
       (stringify_recipes (firstn 10 (recipe :: existing))))
    (ls_log "Failed to save recipe to localStorage:").

Definition deleteRecipe (recipeId : string) : Eff local_storage unit :=
  eff_catch
    (existing <- loadRecipes ;;
     setItem SAVED_RECIPES
       (stringify_recipes
          (filter (fun r => negb (recipe_id r =? recipeId)%string)
                  existing)))
    (ls_log "Failed to delete recipe from localStorage:").

Definition clearStorage : Eff local_storage unit :=
  eff_catch
    (removeItem CURRENT_LIST ;;
     removeItem HISTORY ;;
     removeItem SAVED_RECIPES)
    (ls_log "Failed to clear localStorage:").

(** The calls a page makes on the recipe and list store. *)
Inductive storage_call : Type :=
| SaveCurrentList (items : list ShoppingItem)
| SaveRecipe (recipe : SavedRecipe)
| DeleteRecipe (recipeId : string)
| ClearStorage.

Definition storage_step (c : storage_call) : Eff local_storage unit :=
  match c with
  | SaveCurrentList items => saveCurrentList items
  | SaveRecipe r => saveRecipe r
  | DeleteRecipe i => deleteRecipe i
  | ClearStorage => clearStorage
  end.

Definition storage_run (cs : list storage_call) (st : local_storage)
  : local_storage :=
  fold_left (fun st' c => snd (storage_step c st')) cs st.

(** The recipes item is one that [loadRecipes] reads as an array: it is
    absent, its text is empty or does not parse, or it is the text of an
    array of recipes. *)
Definition recipes_item_ok (st : local_storage) : Prop :=
  ls_items st SAVED_RECIPES = None \/
  ls_items st SAVED_RECIPES = Some "" \/
  (exists t, ls_items st SAVED_RECIPES = Some t /\ parse_recipes t = None) \/
  (exists l, ls_items st SAVED_RECIPES = Some (stringify_recipes l)).

(** The recipes item is absent or is the text of at most ten recipes. *)
Definition recipes_capped (st : local_storage) : Prop :=
  ls_items st SAVED_RECIPES = None \/
  exists l, ls_items st SAVED_RECIPES = Some (stringify_recipes l) /\
            length l <= 10.

End StorageCode.

(** A [localStorage] none of whose accesses throws. *)
Definition ls_reliable : nat -> bool := fun _ => false.

(** A small JSON-like codec used to exercise the store: a list of booleans
    is an opening bracket followed by one digit per element. *)
Fixpoint bits_text (l : list bool) : string :=
  match l with
  | [] => EmptyString
  | b :: r => String (if b then "1"%char else "0"%char) (bits_text r)
  end.

Fixpoint text_bits (t : string) : list bool :=
  match t with
  | EmptyString => []
  | String c r => Ascii.eqb c "1"%char :: text_bits r
  end.

Definition bits_stringify (l : list bool) : string :=
  String "["%char (bits_text l).

Definition bits_parse (t : string) : option (list bool) :=
  match t with
  | String c r => if Ascii.eqb c "["%char then Some (text_bits r) else None
  | EmptyString => None
  end.

Definition bit_id (b : bool) : string := if b then "yes" else "no".

(** ** The hook *)

Section Controller.

Variable opts : options.
Variable engine_throws : nat -> primitive -> bool.

(** [recognitionRef.current.start()], [.abort()], [.stop()]: the call is
    logged, then it returns or throws as the engine decides. *)
Definition call_engine (p : primitive) : M unit :=
  fun s =>
    let s' :=
      set_calls
        (calls s ++ [{| prim := p;
                        seen_transcript := rendered_transcript s;
                        seen_finalTranscript := rendered_finalTranscript s;
                        written_transcript := transcript s;
                        written_finalTranscript := finalTranscript s |}]) s in
    if engine_throws (length (calls s)) p then (Thrown, s') else (Normal tt, s').

(** [onX?.(...)] *)
Definition invoke (supplied : bool) (c : callback) : M unit :=
  when supplied (modify (fun s => set_callbacks (callbacks s ++ [c]) s)).

Definition console_line (t : string) : M unit :=
  modify (fun s => set_console (console s ++ [t]) s).

(** The continuation of the 100 ms timer of the [audioend] listener. *)
Definition restart_callback : M unit :=
  l <- read isListeningRef ;;
  ms <- read manuallyStoppedRef ;;
  fs <- read forceStoppedRef ;;
  sr <- read stopRequestedRef ;;
  rec <- read recognitionRef ;;
  when (l && negb ms && negb fs && negb sr && rec)
    (try_catch
       (call_engine PStart ;;
        modify (set_isListeningRef true))
       (ret tt)).

(** The continuation of the inactivity timer of the [result] listener. *)
Definition inactivity_callback : M unit :=
  l <- read isListeningRef ;;
  rec <- read recognitionRef ;;
  ms <- read manuallyStoppedRef ;;
  when (l && rec && negb ms)
    (try_catch
       (call_engine PAbort ;;
        modify (set_isListening false) ;;
        modify (set_isListeningRef false))
       (console_line "Failed to stop recognition on timeout:")).

Definition callback_of (k : timer_kind) : M unit :=
  match k with
  | RestartTimer => restart_callback
  | InactivityTimer => inactivity_callback
  end.

(** The [audioend] listener. *)
Definition on_audioend : M unit :=
  modify (set_isListeningRef false) ;;
  sr <- read stopRequestedRef ;;
  if sr then ret tt
  else
    l <- read isListeningRef ;;
    ms <- read manuallyStoppedRef ;;
    fs <- read forceStoppedRef ;;
    when (l && continuous opts && negb ms && negb fs)
      (id <- setTimeout RestartTimer 100 ;;
       modify (set_audioendTimeoutRef (Some id))).

(** The [result] listener. *)
Definition on_result (ev : result_event) : M unit :=
  h <- read inactivityTimeoutRef ;;
  clear_handle h ;;
  l <- read isListeningRef ;;
  when ((0 <? timeout opts)%Z && l)
    (id <- setTimeout InactivityTimer (timeout opts) ;;
     modify (set_inactivityTimeoutRef (Some id))) ;;
  when (truthy (finalText ev))
    (modify (fun s =>
       set_finalTranscript (String.append (finalTranscript s) (finalText ev)) s) ;;
     invoke (onResult opts) (OnResult (finalText ev) true)) ;;
  when (truthy (interimTranscript ev))
    (modify (set_transcript (interimTranscript ev)) ;;
     invoke (onResult opts) (OnResult (interimTranscript ev) false)).

(** The [error] listener. *)
Definition on_error (k : string) : M unit :=
  if (k =? "aborted")%string then ret tt
  else if (k =? "no-speech")%string then
    console_line "No speech detected, continuing to listen..."
  else
    console_line "Speech recognition error:" ;;
    invoke (onError opts) (OnError k) ;;
    when ((k =? "network")%string || (k =? "not-allowed")%string)
      (modify (set_isListening false)).

(** The [end] listener. *)
Definition on_end : M unit :=
  modify (set_isListeningRef false) ;;
  ms <- read manuallyStoppedRef ;;
  when (negb ms) (invoke (onEnd opts) OnEnd) ;;
  ms' <- read manuallyStoppedRef ;;
  when (negb (continuous opts) || ms')
    (modify (set_isListening false) ;;
     modify (set_manuallyStopped false) ;;
     modify (set_manuallyStoppedRef false)).

Definition startListening : M unit :=
  sup <- read isSupported ;;
  rec <- read recognitionRef ;;
  if negb sup || negb rec then ret tt
  else
    try_catch
      (modify (set_stopRequestedRef false) ;;
       modify (set_isListening true) ;;
       modify (set_isListeningRef true) ;;
       modify (set_manuallyStopped false) ;;
       modify (set_manuallyStoppedRef false) ;;
       modify (set_forceStoppedRef false) ;;
       modify (set_transcript "") ;;
       modify (set_finalTranscript "") ;;
       call_engine PStart)
      (console_line "Failed to start speech recognition:" ;;
       modify (set_isListening false) ;;
       modify (set_isListeningRef false)).

Definition stopListening : M unit :=
  rec <- read recognitionRef ;;
  if negb rec then ret tt
  else
    modify (set_stopRequestedRef true) ;;
    modify (set_isListening false) ;;
    modify (set_isListeningRef false) ;;
    modify (set_manuallyStopped true) ;;
    modify (set_manuallyStoppedRef true) ;;
    modify (set_forceStoppedRef true) ;;
    hi <- read inactivityTimeoutRef ;;
    when (is_set hi)
      (clear_handle hi ;;
       modify (set_inactivityTimeoutRef None)) ;;
    ha <- read audioendTimeoutRef ;;
    when (is_set ha)
      (clear_handle ha ;;
       modify (set_audioendTimeoutRef None)) ;;
    try_catch
      (call_engine PAbort)
      (try_catch
         (call_engine PStop)
         (console_line "Failed to stop speech recognition:")) ;;
    modify (set_isListening false) ;;
    modify (set_isListeningRef false) ;;
    modify (set_forceStoppedRef true).

Definition resetTranscript : M unit :=
  modify (set_transcript "") ;;
  modify (set_finalTranscript "").

(** The cleanup function of the effects: both timers are cancelled, the
    handles are left as they are. *)
Definition cleanup : M unit :=
  hi <- read inactivityTimeoutRef ;;
  clear_handle hi ;;
  ha <- read audioendTimeoutRef ;;
  clear_handle ha.

(** ** The event loop *)

(** An exception that escapes a timer continuation or a listener is reported
    by the host; the loop goes on. *)
Definition uncaught (m : M unit) : M unit := try_catch m (ret tt).

(** One timer fires: it leaves the table, the clock is at least its due time,
    its continuation runs. *)
Definition fire (t : timer) : M unit :=
  modify (fun s => set_pending (drop_timer (tid t) (pending s)) s) ;;
  modify (fun s => set_now (Z.max (now s) (due t)) s) ;;
  uncaught (callback_of (kind t)).

(** Run, earliest first, the timers that are due at [limit].  The table is
    read again after each continuation; [fuel] bounds the number of firings. *)
Fixpoint fire_due (fuel : nat) (limit : Z) : M unit :=
  match fuel with
  | 0 => ret tt
  | S fuel' =>
      p <- read pending ;;
      match earliest (filter (is_due limit) p) with
      | None => ret tt
      | Some t => fire t ;; fire_due fuel' limit
      end
  end.

(** [ms] milliseconds pass with no other event. *)
Definition elapse (ms : Z) : M unit :=
  n <- read now ;;
  p <- read pending ;;
  fire_due (length p) (n + ms)%Z ;;
  modify (fun s => set_now (Z.max (now s) (n + ms)%Z) s).

(** The listeners are attached to the engine object, so engine events reach
    the hook only when there is one. *)
Definition listener (m : M unit) : M unit :=
  rec <- read recognitionRef ;;
  when rec (uncaught m).

Definition step (e : event) : M unit :=
  match e with
  | StartListening => startListening
  | StopListening => stopListening
  | ResetTranscript => resetTranscript
  | AudioEnd => listener on_audioend
  | Result ev => listener (on_result ev)
  | Error k => listener (on_error k)
  | End => listener on_end
  | Elapse ms => elapse ms
  | Cleanup => cleanup
  | Render => modify render
  end.

Definition run (es : list event) (s : state) : state :=
  fold_left (fun s' e => snd (step e s')) es s.

(** The hook after its first effect has run: [has_engine] says whether the
    window offers [SpeechRecognition] or [webkitSpeechRecognition]. *)
Definition mount (has_engine : bool) : state :=
  {| isSupported := has_engine;
     isListening := false;
     transcript := "";
     finalTranscript := "";
     manuallyStopped := false;
     isListeningRef := false;
     manuallyStoppedRef := false;
     forceStoppedRef := false;
     stopRequestedRef := false;
     recognitionRef := has_engine;
     inactivityTimeoutRef := None;
     audioendTimeoutRef := None;
     now := 0%Z;
     next_timer := 1;
     pending := [];
     calls := [];
     callbacks := [];
     console := [];
     rendered_transcript := "";
     rendered_finalTranscript := "" |}.

Definition reachable (s : state) : Prop :=
  exists (has_engine : bool) (es : list event), s = run es (mount has_engine).

(** ** Observations *)

Definition count_calls (p : primitive) (l : list engine_call) : nat :=
  length (filter (fun c => primitive_eqb (prim c) p) l).

Definition is_OnError (c : callback) : bool :=
  match c with
  | OnError _ => true
  | _ => false
  end.

Definition count_OnError (l : list callback) : nat :=
  length (filter is_OnError l).

Arguments count_calls : simpl never.
Arguments count_OnError : simpl never.


(** The cells a caller of [stopListening] can tell apart. *)
Definition session_view (s : state) :=
  (stopRequestedRef s, isListening s, isListeningRef s,
   manuallyStopped s, manuallyStoppedRef s, forceStoppedRef s,
   inactivityTimeoutRef s, audioendTimeoutRef s,
   transcript s, finalTranscript s).

(** [s'] continues the call log of [s] with calls none of which is [start]. *)
Definition no_start_since (s s' : state) : Prop :=
  exists l : list engine_call,
    calls s' = calls s ++ l /\
    forallb (fun c => negb (primitive_eqb (prim c) PStart)) l = true.

(** No restart path can reach the engine: a stop was requested, or there is
    no engine at all. *)
Definition guarded (s : state) : Prop :=
  stopRequestedRef s = true \/ recognitionRef s = false.

(** The timer table is well formed: identifiers are distinct and below the
    next one to be issued, and the only inactivity timer that can be pending
    is the one [inactivityTimeoutRef] holds. *)
Definition timers_ok_of (p : list timer) (n : nat) (h : option nat) : Prop :=
  NoDup (map tid p) /\
  (forall t, In t p -> tid t < n) /\
  (forall t, In t p -> kind t = InactivityTimer -> h = Some (tid t)).

Definition no_inactivity (p : list timer) : Prop :=
  forall t, In t p -> kind t <> InactivityTimer.

(** The table after the handle held by [inactivityTimeoutRef] is cleared. *)
Definition cleared (s : state) : list timer :=
  match inactivityTimeoutRef s with
  | Some id => drop_timer id (pending s)
  | None => pending s
  end.

(** The shadow flag is up only on a bound engine that was not stopped by the
    caller. *)
Definition flags_ok (s : state) : Prop :=
  isListeningRef s = true ->
  manuallyStoppedRef s = false /\ recognitionRef s = true.

Definition consistent (s : state) : Prop :=
  timers_ok_of (pending s) (next_timer s) (inactivityTimeoutRef s) /\
  flags_ok s.

(** The watchdog [T] is pending on a session whose shadow flag is up; [a]
    aborts and [e] error callbacks were made so far. *)
Definition armed (T : timer) (a e : nat) (s : state) : Prop :=
  isListeningRef s = true /\
  manuallyStoppedRef s = false /\
  recognitionRef s = true /\
  In T (pending s) /\
  NoDup (map tid (pending s)) /\
  (forall t, In t (pending s) -> kind t = InactivityTimer -> t = T) /\
  count_calls PAbort (calls s) = a /\
  count_OnError (callbacks s) = e.

(** The watchdog has fired: one more abort, no error callback, and both
    listening flags down unless the abort threw. *)
Definition tripped (a e : nat) (s : state) : Prop :=
  no_inactivity (pending s) /\
  count_calls PAbort (calls s) = S a /\
  count_OnError (callbacks s) = e /\
  ((forall n, engine_throws n PAbort = false) ->
   isListening s = false /\ isListeningRef s = false).

(** Every pending timer is a watchdog, and none is pending on a hook that has
    no engine. *)
Definition watchdog_only (s : state) : Prop :=
  (forall t, In t (pending s) -> kind t = InactivityTimer) /\
  (recognitionRef s = false -> pending s = []).

(** [if (h) clearTimeout(h)] on the timer table. *)
Definition drop_handle (h : option nat) (p : list timer) : list timer :=
  match h with
  | Some id => drop_timer id p
  | None => p
  end.

(** The caller neither starts nor stops during [es]. *)
Definition caller_idle (es : list event) : Prop :=
  ~ In StartListening es /\ ~ In StopListening es.

(** The cells a timer continuation never writes. *)
Definition timer_frame (s : state) :=
  (stopRequestedRef s, manuallyStopped s, manuallyStoppedRef s,
   forceStoppedRef s, transcript s, finalTranscript s, callbacks s,
   inactivityTimeoutRef s, audioendTimeoutRef s).

(** ** Proof tools *)

Ltac hook_unfold :=
  unfold step, listener, fire, uncaught, startListening, stopListening,
    resetTranscript, cleanup, on_audioend, on_result, on_error, on_end,
    restart_callback, inactivity_callback, callback_of, invoke, console_line,
    call_engine, clear_handle, clearTimeout, setTimeout, try_catch, when, is_set,
    bind, ret, read, modify in *.

Ltac hook_case :=
  match goal with
  | |- context [match ?x with _ => _ end] =>
      lazymatch x with
      | context [match _ with _ => _ end] => fail
      | _ => destruct x eqn:?
      end
  end.

Ltac hook_cases := repeat (cbn in *; hook_case); cbn in *.

Ltac flag_cases s :=
  destruct (isListeningRef s) eqn:?, (manuallyStoppedRef s) eqn:?,
    (forceStoppedRef s) eqn:?, (stopRequestedRef s) eqn:?,
    (recognitionRef s) eqn:?.

Ltac since_tac :=
  unfold no_start_since; cbn; rewrite <- ?app_assoc;
  first [ exists []; rewrite app_nil_r; split; reflexivity
        | eexists; split; reflexivity ].

(** ** The public methods *)

Lemma stopListening_unbound (s : state) :
  recognitionRef s = false -> stopListening s = (Normal tt, s).
Proof.
  intros H. unfold stopListening, bind, read, ret. now rewrite H.
Qed.

Lemma stopListening_bound (s : state) :
  recognitionRef s = true ->
  fst (stopListening s) = Normal tt /\
  session_view (snd (stopListening s)) =
    (true, false, false, true, true, true, None, None,
     transcript s, finalTranscript s) /\
  recognitionRef (snd (stopListening s)) = true.
Proof.
  intros H. hook_unfold. unfold session_view. rewrite H.
  hook_cases; repeat split; congruence.
Qed.
Lemma startListening_returns (s : state) :
  fst (startListening s) = Normal tt.
Proof. hook_unfold. hook_cases; congruence. Qed.

Lemma startListening_flags (s : state) :
  (isListening (snd (startListening s)),
   isListeningRef (snd (startListening s))) =
  if isSupported s && recognitionRef s
  then (negb (engine_throws (length (calls s)) PStart),
        negb (engine_throws (length (calls s)) PStart))
  else (isListening s, isListeningRef s).
Proof.
  hook_unfold.
  destruct (isSupported s), (recognitionRef s); hook_cases; congruence.
Qed.

Lemma startListening_supported (s : state) :
  isSupported s = true ->
  recognitionRef s = true ->
  calls (snd (startListening s)) =
    calls s ++ [{| prim := PStart;
                   seen_transcript := rendered_transcript s;
                   seen_finalTranscript := rendered_finalTranscript s;
                   written_transcript := "";
                   written_finalTranscript := "" |}] /\
  transcript (snd (startListening s)) = "" /\
  finalTranscript (snd (startListening s)) = "" /\
  rendered_transcript (snd (startListening s)) = rendered_transcript s /\
  rendered_finalTranscript (snd (startListening s)) =
    rendered_finalTranscript s.
Proof.
  intros Hs Hr. hook_unfold. rewrite Hs, Hr. hook_cases; auto.
Qed.

Lemma startListening_transcripts (s : state) :
  (transcript (snd (startListening s)) = transcript s /\
   finalTranscript (snd (startListening s)) = finalTranscript s) \/
  (transcript (snd (startListening s)) = "" /\
   finalTranscript (snd (startListening s)) = "").
Proof. hook_unfold. hook_cases; auto. Qed.

Lemma stopListening_returns (s : state) :
  fst (stopListening s) = Normal tt.
Proof.
  destruct (recognitionRef s) eqn:H.
  - now apply stopListening_bound.
  - now rewrite stopListening_unbound.
Qed.

Lemma stopListening_view (s : state) :
  session_view (snd (stopListening s)) =
  if recognitionRef s
  then (true, false, false, true, true, true, None, None,
        transcript s, finalTranscript s)
  else session_view s.
Proof.
  destruct (recognitionRef s) eqn:H.
  - now apply stopListening_bound.
  - now rewrite stopListening_unbound.
Qed.

(** ** The [result] listener *)

Lemma append_empty_r (t : string) : String.append t "" = t.
Proof. induction t as [|c t IH]; cbn; [reflexivity | now rewrite IH]. Qed.

Lemma append_assoc (a b c : string) :
  String.append (String.append a b) c = String.append a (String.append b c).
Proof. induction a as [|x a IH]; cbn; [reflexivity | now rewrite IH]. Qed.

Lemma append_is_empty (a b : string) : String.append a b = "" -> a = "".
Proof. destruct a; cbn; [reflexivity | discriminate]. Qed.

Lemma truthy_false (t : string) : truthy t = false -> t = "".
Proof. destruct t; cbn; [reflexivity | discriminate]. Qed.

Lemma truthy_true (t : string) : truthy t = true -> t <> "".
Proof. destruct t; cbn; [discriminate | intros _ H; discriminate H]. Qed.

Lemma concat_cons (t : string) (l : list string) :
  String.concat "" (t :: l) = String.append t (String.concat "" l).
Proof.
  destruct l as [|u l]; cbn; [now rewrite append_empty_r | reflexivity].
Qed.

Lemma joined_cons (final : bool) (r : recognition_result)
      (rs : list recognition_result) :
  joined final (r :: rs) =
  if Bool.eqb (isFinal r) final
  then String.append (alt_transcript r) (joined final rs)
  else joined final rs.
Proof.
  unfold joined. cbn [filter].
  destruct (Bool.eqb (isFinal r) final); [|reflexivity].
  cbn [map]. apply concat_cons.
Qed.

Lemma accumulate_joined (rs : list recognition_result) (a b : string) :
  accumulate rs (a, b) =
  (String.append a (joined true rs), String.append b (joined false rs)).
Proof.
  revert a b. induction rs as [|r rs IH]; intros a b.
  - cbn. now rewrite !append_empty_r.
  - cbn [accumulate fst snd]. rewrite !joined_cons.
    destruct (isFinal r); cbn [Bool.eqb]; rewrite IH;
      now rewrite append_assoc.
Qed.

Lemma finalText_joined (ev : result_event) :
  finalText ev = joined true (new_results ev).
Proof. unfold finalText. now rewrite accumulate_joined. Qed.

Lemma interimTranscript_joined (ev : result_event) :
  interimTranscript ev = joined false (new_results ev).
Proof. unfold interimTranscript. now rewrite accumulate_joined. Qed.

Lemma joined_none (final : bool) (rs : list recognition_result) :
  forallb (fun r => negb (Bool.eqb (isFinal r) final)) rs = true ->
  joined final rs = "".
Proof.
  induction rs as [|r rs IH]; [reflexivity|].
  cbn [forallb]. intros H. apply andb_prop in H as [H1 H2].
  rewrite joined_cons. apply negb_true_iff in H1. rewrite H1. now apply IH.
Qed.

Lemma on_result_transcripts (ev : result_event) (s : state) :
  transcript (snd (on_result ev s)) =
    (if truthy (interimTranscript ev) then interimTranscript ev
     else transcript s) /\
  finalTranscript (snd (on_result ev s)) =
    (if truthy (finalText ev)
     then String.append (finalTranscript s) (finalText ev)
     else finalTranscript s).
Proof.
  hook_unfold.
  destruct (truthy (interimTranscript ev)), (truthy (finalText ev));
    hook_cases; auto.
Qed.

(** ** The [error] listener *)

Lemma on_error_quiet (k : string) (s : state) :
  k = "aborted" \/ k = "no-speech" ->
  callbacks (snd (on_error k s)) = callbacks s /\
  isListening (snd (on_error k s)) = isListening s.
Proof.
  intros [-> | ->]; hook_unfold; cbn; auto.
Qed.

Lemma on_error_reported (k : string) (s : state) :
  k <> "aborted" ->
  k <> "no-speech" ->
  callbacks (snd (on_error k s)) =
    callbacks s ++ (if onError opts then [OnError k] else []) /\
  isListening (snd (on_error k s)) =
    (if (k =? "network")%string || (k =? "not-allowed")%string
     then false else isListening s).
Proof.
  intros Ha Hn. apply String.eqb_neq in Ha, Hn.
  unfold on_error. rewrite Ha, Hn. hook_unfold.
  destruct (onError opts),
    ((k =? "network")%string || (k =? "not-allowed")%string);
    cbn; rewrite ?app_nil_r; auto.
Qed.

(** ** The event loop *)

Lemma uncaught_state (m : M unit) (s : state) :
  snd (uncaught m s) = snd (m s).
Proof.
  unfold uncaught, try_catch, ret. now destruct (m s) as [[u|] s'].
Qed.

Lemma uncaught_returns (m : M unit) (s : state) :
  fst (uncaught m s) = Normal tt.
Proof.
  unfold uncaught, try_catch, ret. now destruct (m s) as [[[]|] s'].
Qed.

Lemma listener_state (m : M unit) (s : state) :
  snd (listener m s) = if recognitionRef s then snd (m s) else s.
Proof.
  unfold listener, bind, read, when, ret.
  destruct (recognitionRef s); [apply uncaught_state | reflexivity].
Qed.

Lemma fire_returns (t : timer) (s : state) : fst (fire t s) = Normal tt.
Proof. unfold fire, bind, modify. apply uncaught_returns. Qed.

Lemma earliest_in (l : list timer) (t : timer) :
  earliest l = Some t -> In t l.
Proof.
  revert t. induction l as [|a l IH]; intros t; cbn; [discriminate|].
  destruct (earliest l) as [u|].
  - intros [= <-]. destruct (before a u); [now left | right; now apply IH].
  - intros [= <-]. now left.
Qed.

Lemma earliest_none (l : list timer) : earliest l = None -> l = [].
Proof.
  destruct l as [|a l]; cbn; [reflexivity|].
  destruct (earliest l); discriminate.
Qed.

(** A property kept by every firing of a pending timer is kept by a whole
    round of firings. *)
Lemma fire_due_preserves (P : state -> Prop) (limit : Z) :
  (forall s t, P s -> In t (pending s) -> P (snd (fire t s))) ->
  forall fuel s, P s -> P (snd (fire_due fuel limit s)).
Proof.
  intros Hfire. induction fuel as [|fuel IH]; intros s HP; [exact HP|].
  cbn [fire_due]. unfold bind at 1, read.
  destruct (earliest (filter (is_due limit) (pending s))) as [t|] eqn:E;
    [|exact HP].
  apply earliest_in, filter_In in E as [Hin _].
  unfold bind. pose proof (fire_returns t s) as Hr.
  specialize (Hfire s t HP Hin).
  destruct (fire t s) as [[u|] s1]; cbn in *; [|discriminate].
  now apply IH.
Qed.

Lemma elapse_preserves (P : state -> Prop) (ms : Z) (s : state) :
  (forall s' t, P s' -> In t (pending s') -> P (snd (fire t s'))) ->
  (forall s' n, P s' -> P (set_now n s')) ->
  P s -> P (snd (elapse ms s)).
Proof.
  intros Hfire Hnow HP. unfold elapse, bind, read, modify.
  pose proof (fire_due_preserves P (now s + ms)%Z Hfire
                (length (pending s)) s HP) as H.
  destruct (fire_due (length (pending s)) (now s + ms)%Z s) as [[u|] s1];
    cbn in *; [now apply Hnow | exact H].
Qed.

(** ** No restart once a stop was requested *)

Lemma no_start_since_refl (s : state) : no_start_since s s.
Proof. exists []. now rewrite app_nil_r. Qed.

Lemma no_start_since_trans (a b c : state) :
  no_start_since a b -> no_start_since b c -> no_start_since a c.
Proof.
  intros [l [H1 H2]] [m [H3 H4]]. exists (l ++ m). split.
  - now rewrite H3, H1, app_assoc.
  - rewrite forallb_app. now rewrite H2, H4.
Qed.

Ltac guarded_tac :=
  split; [unfold guarded in *; cbn; intuition congruence | since_tac].

Lemma fire_guarded (t : timer) (s : state) :
  guarded s ->
  guarded (snd (fire t s)) /\ no_start_since s (snd (fire t s)).
Proof.
  intros Hg. unfold fire, callback_of.
  destruct (kind t); hook_unfold; cbn; flag_cases s;
    try (exfalso; unfold guarded in Hg; intuition congruence);
    hook_cases; guarded_tac.
Qed.

Lemma stopListening_guarded (s : state) :
  guarded (snd (stopListening s)) /\
  no_start_since s (snd (stopListening s)).
Proof.
  hook_unfold. destruct (recognitionRef s) eqn:Hr; hook_cases; guarded_tac.
Qed.

Lemma step_guarded (e : event) (s : state) :
  e <> StartListening ->
  guarded s ->
  guarded (snd (step e s)) /\ no_start_since s (snd (step e s)).
Proof.
  intros He Hg. destruct e as [| | | |ev|k| |ms| |]; try congruence.
  - apply stopListening_guarded.
  - hook_unfold. cbn. guarded_tac.
  - hook_unfold. cbn. flag_cases s; hook_cases; guarded_tac.
  - hook_unfold. cbn. flag_cases s; hook_cases; guarded_tac.
  - hook_unfold. cbn. flag_cases s; hook_cases; guarded_tac.
  - hook_unfold. cbn. flag_cases s; hook_cases; guarded_tac.
  - cbn [step].
    apply (elapse_preserves (fun s' => guarded s' /\ no_start_since s s')).
    + intros s' t [Hg' Hs'] _. destruct (fire_guarded t s' Hg') as [H1 H2].
      split; [exact H1 | now apply no_start_since_trans with s'].
    + intros s' n [Hg' Hs']. split; [exact Hg' | exact Hs'].
    + split; [exact Hg | apply no_start_since_refl].
  - hook_unfold. hook_cases; guarded_tac.
  - hook_unfold. cbn. guarded_tac.
Qed.

Lemma run_guarded (es : list event) (s : state) :
  ~ In StartListening es ->
  guarded s ->
  no_start_since s (run es s).
Proof.
  revert s. induction es as [|e es IH]; intros s Hn Hg.
  - apply no_start_since_refl.
  - cbn [run fold_left].
    assert (He : e <> StartListening) by (intros ->; apply Hn; now left).
    destruct (step_guarded e s He Hg) as [Hg' Hs'].
    apply no_start_since_trans with (snd (step e s)); [exact Hs'|].
    apply IH; [|exact Hg']. intros Hin. apply Hn. now right.
Qed.

(** ** Transcripts *)

Lemma fire_transcripts (t : timer) (s : state) :
  transcript (snd (fire t s)) = transcript s /\
  finalTranscript (snd (fire t s)) = finalTranscript s.
Proof.
  unfold fire, callback_of.
  destruct (kind t); hook_unfold; cbn; hook_cases; auto.
Qed.

(** What one event can do to the two transcripts: clear both, or leave each
    either untouched or non-empty. *)
Lemma step_transcripts (e : event) (s : state) :
  (transcript (snd (step e s)) = "" /\
   finalTranscript (snd (step e s)) = "") \/
  ((transcript (snd (step e s)) = transcript s \/
    transcript (snd (step e s)) <> "") /\
   (finalTranscript (snd (step e s)) = finalTranscript s \/
    finalTranscript (snd (step e s)) <> "")).
Proof.
  destruct e as [| | | |ev|k| |ms| |]; cbn [step].
  - destruct (startListening_transcripts s) as [[H1 H2]|[H1 H2]];
      [right | left]; rewrite H1, H2; auto.
  - right. pose proof (stopListening_view s) as H. unfold session_view in H.
    destruct (recognitionRef s); injection H as _ _ _ _ _ _ _ _ H1 H2;
      rewrite H1, H2; auto.
  - left. split; reflexivity.
  - right. rewrite listener_state. destruct (recognitionRef s); [|auto].
    hook_unfold. hook_cases; auto.
  - right. rewrite listener_state. destruct (recognitionRef s); [|auto].
    destruct (on_result_transcripts ev s) as [H1 H2]. rewrite H1, H2. split.
    + destruct (truthy (interimTranscript ev)) eqn:E; [right | now left].
      now apply truthy_true.
    + destruct (truthy (finalText ev)) eqn:E; [right | now left].
      intros H. apply truthy_true in E. apply E.
      destruct (finalTranscript s); cbn in H; [exact H | discriminate].
  - right. rewrite listener_state. destruct (recognitionRef s); [|auto].
    unfold on_error. hook_unfold. hook_cases; auto.
  - right. rewrite listener_state. destruct (recognitionRef s); [|auto].
    hook_unfold. hook_cases; auto.
  - right.
    enough (H : transcript (snd (elapse ms s)) = transcript s /\
                finalTranscript (snd (elapse ms s)) = finalTranscript s)
      by (destruct H as [H1 H2]; rewrite H1, H2; auto).
    apply (elapse_preserves
             (fun s' => transcript s' = transcript s /\
                        finalTranscript s' = finalTranscript s)).
    + intros s' t [H1 H2] _. destruct (fire_transcripts t s') as [H3 H4].
      split; congruence.
    + intros s' n H. exact H.
    + auto.
  - right. hook_unfold. hook_cases; auto.
  - right. cbn. auto.
Qed.

(** ** The [audioend] listener *)

(** The listener clears the shadow flag and then tests it: the restart timer
    is never armed, whatever the state and the options. *)
Lemma on_audioend_schedules_nothing (s : state) :
  pending (snd (on_audioend s)) = pending s /\
  audioendTimeoutRef (snd (on_audioend s)) = audioendTimeoutRef s /\
  calls (snd (on_audioend s)) = calls s.
Proof. hook_unfold. hook_cases; auto. Qed.

(** ** The timer table *)

Lemma in_drop_timer (id : nat) (p : list timer) (t : timer) :
  In t (drop_timer id p) <-> In t p /\ tid t <> id.
Proof.
  unfold drop_timer. rewrite filter_In, negb_true_iff, Nat.eqb_neq.
  reflexivity.
Qed.

Lemma NoDup_drop_timer (id : nat) (p : list timer) :
  NoDup (map tid p) -> NoDup (map tid (drop_timer id p)).
Proof.
  unfold drop_timer.
  induction p as [|a p IH]; cbn; intros H; [constructor|].
  inversion H as [|x l Hx Hl]; subst.
  destruct (negb (tid a =? id)); cbn; [|now apply IH].
  constructor; [|now apply IH].
  intros Hin. apply Hx. apply in_map_iff in Hin as [t [Ht Hin]].
  apply (in_drop_timer id) in Hin as [Hin _]. apply in_map_iff. now exists t.
Qed.

Lemma timers_ok_drop (id : nat) (p : list timer) (n : nat) (h : option nat) :
  timers_ok_of p n h -> timers_ok_of (drop_timer id p) n h.
Proof.
  intros [H1 [H2 H3]]. repeat split.
  - now apply NoDup_drop_timer.
  - intros t Ht. apply in_drop_timer in Ht as [Ht _]. now apply H2.
  - intros t Ht. apply in_drop_timer in Ht as [Ht _]. now apply H3.
Qed.

Lemma cleared_no_inactivity (id : nat) (p : list timer) (n : nat) :
  timers_ok_of p n (Some id) -> no_inactivity (drop_timer id p).
Proof.
  intros [_ [_ H3]] t Ht Hk. apply in_drop_timer in Ht as [Ht Hne].
  specialize (H3 t Ht Hk). congruence.
Qed.

Lemma none_no_inactivity (p : list timer) (n : nat) :
  timers_ok_of p n None -> no_inactivity p.
Proof. intros [_ [_ H3]] t Ht Hk. specialize (H3 t Ht Hk). discriminate. Qed.

Lemma no_inactivity_ok (p : list timer) (n : nat) (h h' : option nat) :
  timers_ok_of p n h -> no_inactivity p -> timers_ok_of p n h'.
Proof.
  intros [H1 [H2 _]] Hn. repeat split; auto.
  intros t Ht Hk. now destruct (Hn t Ht).
Qed.

Lemma timers_ok_cleared (id : nat) (p : list timer) (n : nat)
      (h' : option nat) :
  timers_ok_of p n (Some id) -> timers_ok_of (drop_timer id p) n h'.
Proof.
  intros H. apply no_inactivity_ok with (Some id).
  - now apply timers_ok_drop.
  - now apply cleared_no_inactivity with n.
Qed.

Lemma timers_ok_arm (p : list timer) (n : nat) (h : option nat) (d : Z) :
  timers_ok_of p n h ->
  no_inactivity p ->
  timers_ok_of (p ++ [{| tid := n; due := d; kind := InactivityTimer |}])
               (S n) (Some n).
Proof.
  intros [H1 [H2 _]] Hn. repeat split.
  - rewrite map_app. cbn. apply NoDup_app. repeat split.
    + exact H1.
    + constructor; [intros [] | constructor].
    + intros x Hx [<-|[]]. apply in_map_iff in Hx as [t [Ht Hin]].
      specialize (H2 t Hin). lia.
  - intros t Ht. apply in_app_iff in Ht as [Ht|[<-|[]]].
    + specialize (H2 t Ht). lia.
    + cbn. lia.
  - intros t Ht Hk. apply in_app_iff in Ht as [Ht|[<-|[]]].
    + now destruct (Hn t Ht).
    + reflexivity.
Qed.

Lemma cleared_ok (s : state) (h' : option nat) :
  timers_ok_of (pending s) (next_timer s) (inactivityTimeoutRef s) ->
  timers_ok_of (cleared s) (next_timer s) h' /\ no_inactivity (cleared s).
Proof.
  unfold cleared. intros H. destruct (inactivityTimeoutRef s) as [id|].
  - split; [now apply timers_ok_cleared | now apply cleared_no_inactivity with (next_timer s)].
  - split; [apply no_inactivity_ok with None; [exact H|] |];
      now apply none_no_inactivity with (next_timer s).
Qed.

Lemma host_delay_small (d : Z) :
  (0 <= d <= 2147483647)%Z -> host_delay d = d.
Proof.
  intros H. unfold host_delay. rewrite Z.mod_small by lia. lia.
Qed.

(** The [result] listener on everything but the transcripts. *)
Lemma on_result_rest (ev : result_event) (s : state) :
  (if (0 <? timeout opts)%Z && isListeningRef s
   then pending (snd (on_result ev s)) =
          cleared s ++ [{| tid := next_timer s;
                           due := (now s + host_delay (timeout opts))%Z;
                           kind := InactivityTimer |}] /\
        next_timer (snd (on_result ev s)) = S (next_timer s) /\
        inactivityTimeoutRef (snd (on_result ev s)) = Some (next_timer s)
   else pending (snd (on_result ev s)) = cleared s /\
        next_timer (snd (on_result ev s)) = next_timer s /\
        inactivityTimeoutRef (snd (on_result ev s)) = inactivityTimeoutRef s) /\
  isListeningRef (snd (on_result ev s)) = isListeningRef s /\
  manuallyStoppedRef (snd (on_result ev s)) = manuallyStoppedRef s /\
  recognitionRef (snd (on_result ev s)) = recognitionRef s /\
  isListening (snd (on_result ev s)) = isListening s /\
  now (snd (on_result ev s)) = now s /\
  calls (snd (on_result ev s)) = calls s /\
  count_OnError (callbacks (snd (on_result ev s))) =
    count_OnError (callbacks s).
Proof.
  unfold cleared, count_OnError. hook_unfold.
  destruct (inactivityTimeoutRef s) eqn:Eh; cbn;
  destruct ((0 <? timeout opts)%Z), (isListeningRef s) eqn:E,
    (truthy (finalText ev)),
    (truthy (interimTranscript ev)), (onResult opts); cbn;
    rewrite ?filter_app; cbn; rewrite ?app_nil_r;
    repeat split; try reflexivity; assumption.
Qed.

(** ** Consistency of reachable states *)

Lemma fire_timers (t : timer) (s : state) :
  pending (snd (fire t s)) = drop_timer (tid t) (pending s) /\
  next_timer (snd (fire t s)) = next_timer s /\
  inactivityTimeoutRef (snd (fire t s)) = inactivityTimeoutRef s.
Proof.
  unfold fire, callback_of.
  destruct (kind t); hook_unfold; cbn; hook_cases; auto.
Qed.

Lemma fire_flags_ok (t : timer) (s : state) :
  flags_ok s -> flags_ok (snd (fire t s)).
Proof.
  unfold flags_ok, fire, callback_of. intros H.
  destruct (kind t); hook_unfold; cbn; flag_cases s; hook_cases;
    intuition congruence.
Qed.

Lemma fire_consistent (t : timer) (s : state) :
  consistent s -> consistent (snd (fire t s)).
Proof.
  intros [Ht Hf]. split; [|now apply fire_flags_ok].
  destruct (fire_timers t s) as [-> [-> ->]]. now apply timers_ok_drop.
Qed.

Ltac timers_tac H :=
  repeat match goal with
         | E : inactivityTimeoutRef _ = _ |- _ =>
             try rewrite E in H; try rewrite E; clear E
         end;
  eauto using timers_ok_drop, timers_ok_cleared.

Lemma step_timers_ok (e : event) (s : state) :
  timers_ok_of (pending s) (next_timer s) (inactivityTimeoutRef s) ->
  flags_ok s ->
  timers_ok_of (pending (snd (step e s))) (next_timer (snd (step e s)))
               (inactivityTimeoutRef (snd (step e s))).
Proof.
  intros H Hf. destruct e as [| | | |ev|k| |ms| |]; cbn [step].
  - hook_unfold. hook_cases; timers_tac H.
  - hook_unfold. hook_cases; timers_tac H.
  - exact H.
  - rewrite listener_state. destruct (recognitionRef s); [|exact H].
    hook_unfold. hook_cases; timers_tac H.
  - rewrite listener_state. destruct (recognitionRef s); [|exact H].
    destruct (on_result_rest ev s) as [Hr _].
    destruct (cleared_ok s (inactivityTimeoutRef s) H) as [Hc Hn].
    destruct ((0 <? timeout opts)%Z && isListeningRef s);
      destruct Hr as [-> [-> ->]]; [|exact Hc].
    now apply timers_ok_arm with (inactivityTimeoutRef s).
  - rewrite listener_state. destruct (recognitionRef s); [|exact H].
    unfold on_error. hook_unfold. hook_cases; timers_tac H.
  - rewrite listener_state. destruct (recognitionRef s); [|exact H].
    hook_unfold. hook_cases; timers_tac H.
  - enough (Hc : consistent (snd (elapse ms s))) by apply Hc.
    apply (elapse_preserves consistent).
    + intros s' t Hc _. now apply fire_consistent.
    + intros s' n Hc. exact Hc.
    + now split.
  - hook_unfold. hook_cases; timers_tac H.
  - exact H.
Qed.

Lemma step_flags_ok (e : event) (s : state) :
  flags_ok s -> flags_ok (snd (step e s)).
Proof.
  intros H. destruct e as [| | | |ev|k| |ms| |]; cbn [step].
  - unfold flags_ok in *. hook_unfold. cbn.
    destruct (isSupported s); flag_cases s; hook_cases; intuition congruence.
  - unfold flags_ok in *. hook_unfold. cbn.
    flag_cases s; hook_cases; intuition congruence.
  - exact H.
  - unfold flags_ok in *. hook_unfold. cbn.
    flag_cases s; hook_cases; intuition congruence.
  - rewrite listener_state. destruct (recognitionRef s) eqn:Hr; [|exact H].
    unfold flags_ok in *.
    destruct (on_result_rest ev s) as [_ [E1 [E2 [E3 _]]]].
    rewrite E1, E2, E3. exact H.
  - unfold flags_ok in *. hook_unfold. cbn.
    flag_cases s; hook_cases; intuition congruence.
  - unfold flags_ok in *. hook_unfold. cbn.
    flag_cases s; hook_cases; intuition congruence.
  - apply (elapse_preserves flags_ok).
    + intros s' t Hc _. now apply fire_flags_ok.
    + intros s' n Hc. exact Hc.
    + exact H.
  - unfold flags_ok in *. hook_unfold. cbn.
    flag_cases s; hook_cases; intuition congruence.
  - exact H.
Qed.

Lemma step_consistent (e : event) (s : state) :
  consistent s -> consistent (snd (step e s)).
Proof.
  intros [Ht Hf]. split;
    [now apply step_timers_ok | now apply step_flags_ok].
Qed.

Lemma run_consistent (es : list event) (s : state) :
  consistent s -> consistent (run es s).
Proof.
  revert s. induction es as [|e es IH]; intros s H; [exact H|].
  cbn [run fold_left]. apply IH. now apply step_consistent.
Qed.

Lemma mount_consistent (has_engine : bool) : consistent (mount has_engine).
Proof.
  unfold consistent, timers_ok_of, flags_ok. cbn.
  split; [split; [constructor | split; intros t []] | discriminate].
Qed.

Lemma reachable_consistent (s : state) : reachable s -> consistent s.
Proof.
  intros [b [es ->]]. apply run_consistent, mount_consistent.
Qed.

(** ** The inactivity watchdog *)

Lemma count_calls_app (p : primitive) (l : list engine_call)
      (c : engine_call) :
  count_calls p (l ++ [c]) =
  count_calls p l + (if primitive_eqb (prim c) p then 1 else 0).
Proof.
  unfold count_calls. rewrite filter_app, length_app. cbn.
  now destruct (primitive_eqb (prim c) p).
Qed.

Lemma drop_timer_length_le (id : nat) (p : list timer) :
  length (drop_timer id p) <= length p.
Proof.
  unfold drop_timer. induction p as [|a p IH]; cbn; [lia|].
  destruct (negb (tid a =? id)); cbn; lia.
Qed.

Lemma drop_timer_shrinks (t : timer) (p : list timer) :
  In t p -> length (drop_timer (tid t) p) < length p.
Proof.
  induction p as [|a p IH]; [intros []|]. intros [->|Hin].
  - unfold drop_timer. cbn. rewrite Nat.eqb_refl. cbn.
    pose proof (drop_timer_length_le (tid t) p) as H.
    unfold drop_timer in H. lia.
  - specialize (IH Hin). unfold drop_timer in *. cbn.
    destruct (negb (tid a =? tid t)); cbn; lia.
Qed.

Lemma no_inactivity_drop (id : nat) (p : list timer) :
  no_inactivity p -> no_inactivity (drop_timer id p).
Proof.
  intros H t Ht. apply in_drop_timer in Ht as [Ht _]. now apply H.
Qed.

Lemma same_tid_same_timer (p : list timer) (t u : timer) :
  NoDup (map tid p) -> In t p -> In u p -> tid t = tid u -> t = u.
Proof.
  induction p as [|a p IH]; [intros _ []|].
  cbn. intros H Ht Hu E. inversion H as [|x l Hx Hl]; subst.
  destruct Ht as [->|Ht], Hu as [->|Hu]; auto.
  - exfalso. apply Hx. rewrite E. now apply in_map.
  - exfalso. apply Hx. rewrite <- E. now apply in_map.
Qed.

Lemma fire_tripped (a e : nat) (t : timer) (s : state) :
  tripped a e s -> In t (pending s) -> tripped a e (snd (fire t s)).
Proof.
  intros (Hn & Ha & He & Hq) Hin.
  assert (Hk : kind t = RestartTimer)
    by (specialize (Hn t Hin); now destruct (kind t)).
  unfold tripped. destruct (fire_timers t s) as [-> _].
  split; [now apply no_inactivity_drop|].
  unfold fire, callback_of. rewrite Hk. hook_unfold. cbn.
  flag_cases s; hook_cases; rewrite ?count_calls_app; cbn;
    rewrite ?Nat.add_0_r; repeat split; auto;
    try solve [ match goal with
                | H' : forall n, _ = false |- _ => destruct (Hq H'); congruence
                end ].
Qed.

Lemma fire_armed (T : timer) (a e : nat) (t : timer) (s : state) :
  armed T a e s ->
  In t (pending s) ->
  kind t = RestartTimer ->
  kind T = InactivityTimer ->
  armed T a e (snd (fire t s)).
Proof.
  intros (Hl & Hm & Hr & HT & Hnd & Hu & Ha & He) Hin Hk HkT.
  assert (Hne : tid T <> tid t).
  { intros E. apply (same_tid_same_timer _ _ _ Hnd HT Hin) in E.
    subst. congruence. }
  unfold armed. destruct (fire_timers t s) as [-> _].
  assert (G : isListeningRef (snd (fire t s)) = true /\
              manuallyStoppedRef (snd (fire t s)) = false /\
              recognitionRef (snd (fire t s)) = true /\
              count_calls PAbort (calls (snd (fire t s))) = a /\
              count_OnError (callbacks (snd (fire t s))) = e).
  { unfold fire, callback_of. rewrite Hk. hook_unfold. cbn.
    rewrite Hl, Hm, Hr.
    destruct (forceStoppedRef s), (stopRequestedRef s); hook_cases;
      rewrite ?count_calls_app; cbn; rewrite ?Nat.add_0_r; auto. }
  destruct G as (G1 & G2 & G3 & G4 & G5).
  repeat split; auto.
  - apply in_drop_timer. now split.
  - now apply NoDup_drop_timer.
  - intros u Hu' Hku. apply in_drop_timer in Hu' as [Hu' _]. now apply Hu.
Qed.

Lemma fire_trip (T : timer) (a e : nat) (s : state) :
  armed T a e s ->
  kind T = InactivityTimer ->
  tripped a e (snd (fire T s)).
Proof.
  intros (Hl & Hm & Hr & HT & Hnd & Hu & Ha & He) HkT.
  unfold tripped. destruct (fire_timers T s) as [-> _]. split.
  - intros u Hu' Hku. apply in_drop_timer in Hu' as [Hu' Hne].
    specialize (Hu u Hu' Hku). subst. congruence.
  - unfold fire, callback_of. rewrite HkT. hook_unfold. cbn.
    rewrite Hl, Hm, Hr. cbn.
    destruct (engine_throws (length (calls s)) PAbort) eqn:Et; cbn;
      rewrite count_calls_app; cbn; repeat split; auto; try lia.
    all: match goal with
         | H : forall n, _ = false |- _ => rewrite H in Et; discriminate
         end.
Qed.

Lemma fire_due_preserves_tripped (a e : nat) (limit : Z) (fuel : nat)
      (s : state) :
  tripped a e s -> tripped a e (snd (fire_due fuel limit s)).
Proof.
  apply fire_due_preserves. intros s' t H Hin. now apply fire_tripped.
Qed.

(** With fuel for every pending timer, a due watchdog does fire. *)
Lemma fire_due_trips (T : timer) (a e : nat) (limit : Z) :
  kind T = InactivityTimer ->
  is_due limit T = true ->
  forall (fuel : nat) (s : state),
    armed T a e s ->
    length (pending s) <= fuel ->
    tripped a e (snd (fire_due fuel limit s)).
Proof.
  intros HkT Hdue. induction fuel as [|fuel IH]; intros s HA Hlen.
  - destruct HA as (_ & _ & _ & HT & _). destruct (pending s); [destruct HT|].
    cbn in Hlen. lia.
  - cbn [fire_due]. unfold bind at 1, read.
    destruct (earliest (filter (is_due limit) (pending s))) as [t|] eqn:E.
    + apply earliest_in, filter_In in E as [Hin _].
      unfold bind. pose proof (fire_returns t s) as Hret.
      destruct (kind t) eqn:Hk.
      * pose proof (fire_armed T a e t s HA Hin Hk HkT) as HA'.
        pose proof (fire_timers t s) as [Hp _].
        pose proof (drop_timer_shrinks t (pending s) Hin) as Hlt.
        destruct (fire t s) as [[u|] s1]; cbn in *; [|discriminate].
        apply IH; [exact HA'|]. rewrite Hp. lia.
      * assert (t = T) by (destruct HA as (_ & _ & _ & _ & _ & Hu & _);
                           now apply Hu).
        subst t. pose proof (fire_trip T a e s HA HkT) as HB.
        destruct (fire T s) as [[u|] s1]; cbn in *; [|discriminate].
        now apply fire_due_preserves_tripped.
    + exfalso. apply earliest_none in E.
      destruct HA as (_ & _ & _ & HT & _).
      assert (Hf : In T (filter (is_due limit) (pending s)))
        by (apply filter_In; now split).
      rewrite E in Hf. destruct Hf.
Qed.

Lemma forallb_pointwise {A : Type} (f g : A -> bool) (l : list A) :
  (forall x, f x = g x) -> forallb f l = forallb g l.
Proof.
  intros H. induction l as [|a l IH]; cbn; [reflexivity|].
  now rewrite H, IH.
Qed.

Lemma only_interim_no_final (ev : result_event) :
  only_interim ev = true -> finalText ev = "".
Proof.
  unfold only_interim. rewrite finalText_joined. intros H.
  apply joined_none. erewrite forallb_pointwise; [exact H|].
  intros r. cbv beta. now destruct (isFinal r).
Qed.

Lemma only_final_no_interim (ev : result_event) :
  only_final ev = true -> interimTranscript ev = "".
Proof.
  unfold only_final. rewrite interimTranscript_joined. intros H.
  apply joined_none. erewrite forallb_pointwise; [exact H|].
  intros r. cbv beta. now destruct (isFinal r).
Qed.

Lemma forallb_skipn {A : Type} (f : A -> bool) (n : nat) (l : list A) :
  forallb f l = true -> forallb f (skipn n l) = true.
Proof.
  revert l. induction n as [|n IH]; intros l H; [exact H|].
  destruct l as [|a l]; [reflexivity|].
  cbn in *. apply andb_prop in H as [_ H]. now apply IH.
Qed.

(** An event all of whose results are interim (final) is in particular one
    whose visited results are. *)
Lemma all_interim_only_interim (ev : result_event) :
  forallb (fun r => negb (isFinal r)) (results ev) = true ->
  only_interim ev = true.
Proof. apply forallb_skipn. Qed.

Lemma all_final_only_final (ev : result_event) :
  forallb isFinal (results ev) = true -> only_final ev = true.
Proof. apply forallb_skipn. Qed.

(** ** Properties of the controller *)

(** C1.  Once [stopListening()] was called, and as long as no
    [startListening()] follows, no event whatsoever -- an [audioend], the
    firing of any timer that was pending at the stop or armed after it,
    a [result], [error] or [end] -- makes the hook call the engine's
    [start]: every call logged from the stop on is an [abort] or a [stop].
    The state [s] is arbitrary, so restart timers may be in flight. *)
Theorem no_restart_after_stopListening (s : state) (es : list event) :
  ~ In StartListening es ->
  no_start_since s (run (StopListening :: es) s).
Proof.
  intros Hn.
  change (run (StopListening :: es) s) with (run es (snd (stopListening s))).
  destruct (stopListening_guarded s) as [Hg Hs].
  apply no_start_since_trans with (snd (stopListening s)); [exact Hs|].
  now apply run_guarded.
Qed.

(** C3, as the listener has it.  After a [result] event whose interim
    hypotheses join to a non-empty text, [transcript] is exactly that text:
    it replaces the old value and is not appended to it.  When the event
    carries no interim text the listener does not write the cell, which
    keeps its previous value. *)
Theorem result_replaces_interim (ev : result_event) (s : state) :
  transcript (snd (on_result ev s)) =
  if truthy (joined false (new_results ev))
  then joined false (new_results ev)
  else transcript s.
Proof.
  destruct (on_result_transcripts ev s) as [H _].
  now rewrite interimTranscript_joined in H.
Qed.

(** C4, as the listener has it.  With [timeout] at 3000, on a reachable
    state whose shadow listening flag is up, a [result] event arms the
    watchdog; if 3000 ms then pass with no other event, the engine's
    [abort] is called exactly once, no [onError] callback is made, and,
    unless that [abort] throws, [isListening] and the shadow flag are
    false. *)
Theorem watchdog_fires_after_result (ev : result_event) (s : state) :
  reachable s ->
  timeout opts = 3000%Z ->
  isListeningRef s = true ->
  count_calls PAbort (calls (run [Result ev; Elapse 3000] s)) =
    S (count_calls PAbort (calls s)) /\
  count_OnError (callbacks (run [Result ev; Elapse 3000] s)) =
    count_OnError (callbacks s) /\
  ((forall n, engine_throws n PAbort = false) ->
   isListening (run [Result ev; Elapse 3000] s) = false /\
   isListeningRef (run [Result ev; Elapse 3000] s) = false).
Proof.
  intros Hreach Ht Hl.
  destruct (reachable_consistent s Hreach) as [Htim Hfl].
  destruct (Hfl Hl) as [Hm Hr].
  change (run [Result ev; Elapse 3000] s)
    with (snd (elapse 3000 (snd (listener (on_result ev) s)))).
  rewrite listener_state, Hr.
  destruct (on_result_rest ev s) as (Hp & E1 & E2 & E3 & E4 & E5 & E6 & E7).
  assert (Hcond : (0 <? timeout opts)%Z && isListeningRef s = true)
    by (rewrite Ht, Hl; reflexivity).
  rewrite Hcond, Ht in Hp.
  change (host_delay 3000) with 3000%Z in Hp.
  destruct Hp as (Hp & Hnext & Hh).
  destruct (cleared_ok s (inactivityTimeoutRef s) Htim) as [Hc Hn].
  set (T := {| tid := next_timer s; due := (now s + 3000)%Z;
               kind := InactivityTimer |}) in *.
  set (s1 := snd (on_result ev s)) in *.
  assert (HA : armed T (count_calls PAbort (calls s))
                     (count_OnError (callbacks s)) s1).
  { unfold armed. rewrite E1, E2, E3, E6, E7, Hp. repeat split; auto.
    - apply in_app_iff. right. now left.
    - apply (timers_ok_arm _ _ _ (now s + 3000)%Z Hc Hn).
    - intros t Hin Hk. apply in_app_iff in Hin as [Hin|[<-|[]]]; auto.
      now destruct (Hn t Hin). }
  assert (HB : tripped (count_calls PAbort (calls s))
                       (count_OnError (callbacks s))
                       (snd (fire_due (length (pending s1))
                                      (now s1 + 3000)%Z s1))).
  { apply fire_due_trips with T; auto.
    unfold is_due, T. cbn. rewrite E5. apply Z.leb_refl. }
  unfold elapse, bind, read, modify.
  destruct (fire_due (length (pending s1)) (now s1 + 3000)%Z s1)
    as [[u|] s2]; cbn in *; destruct HB as (_ & Ha & He & Hq); auto.
Qed.

(** C5.  Two calls of [stopListening()] in a row leave the stop flag, both
    listening flags, [manuallyStopped] (cell and ref), [forceStopped], both
    timer handles and both transcripts as one call does. *)
Theorem stopListening_idempotent (s : state) :
  session_view (run [StopListening; StopListening] s) =
  session_view (run [StopListening] s).
Proof.
  change (run [StopListening; StopListening] s)
    with (snd (stopListening (snd (stopListening s)))).
  change (run [StopListening] s) with (snd (stopListening s)).
  destruct (recognitionRef s) eqn:Hr.
  - destruct (stopListening_bound s Hr) as (_ & Hv & Hr').
    destruct (stopListening_bound _ Hr') as (_ & Hv' & _).
    rewrite Hv', Hv. unfold session_view in Hv.
    injection Hv as _ _ _ _ _ _ _ _ H1 H2. now rewrite H1, H2.
  - rewrite (stopListening_unbound s Hr). cbn [snd].
    now rewrite (stopListening_unbound s Hr).
Qed.

(** C6.  A [result] event whose hypotheses are all interim leaves
    [finalTranscript] as it was, and one whose hypotheses are all final
    leaves [transcript] as it was.  The hypotheses are those the listener
    visits, from [resultIndex] on. *)
Theorem result_frame (ev : result_event) (s : state) :
  (only_interim ev = true ->
   finalTranscript (snd (on_result ev s)) = finalTranscript s) /\
  (only_final ev = true ->
   transcript (snd (on_result ev s)) = transcript s).
Proof.
  destruct (on_result_transcripts ev s) as [H1 H2]. split; intros H.
  - apply only_interim_no_final in H. now rewrite H2, H.
  - apply only_final_no_interim in H. now rewrite H1, H.
Qed.

(** C7, as the hook has it.  On a supported hook with an engine,
    [startListening()] calls the engine's [start] once, after it has written
    the empty text to both transcripts: the two writes are queued together
    before the call.  At the call itself the hook still shows the transcripts
    of the current render; both show empty from the next render on.  And no
    event ever empties one transcript without the other being empty too. *)
Theorem transcripts_cleared_together :
  (forall s : state,
      isSupported s = true ->
      recognitionRef s = true ->
      calls (snd (startListening s)) =
        calls s ++ [{| prim := PStart;
                       seen_transcript := rendered_transcript s;
                       seen_finalTranscript := rendered_finalTranscript s;
                       written_transcript := "";
                       written_finalTranscript := "" |}] /\
      transcript (snd (startListening s)) = "" /\
      finalTranscript (snd (startListening s)) = "" /\
      rendered_transcript (run [StartListening; Render] s) = "" /\
      rendered_finalTranscript (run [StartListening; Render] s) = "") /\
  (forall (e : event) (s : state),
      (transcript s <> "" ->
       transcript (snd (step e s)) = "" ->
       finalTranscript (snd (step e s)) = "") /\
      (finalTranscript s <> "" ->
       finalTranscript (snd (step e s)) = "" ->
       transcript (snd (step e s)) = "")).
Proof.
  split.
  - intros s Hs Hr.
    destruct (startListening_supported s Hs Hr) as (Hc & Ht & Hf & _).
    change (run [StartListening; Render] s)
      with (render (snd (startListening s))).
    cbn [render rendered_transcript rendered_finalTranscript].
    auto.
  - intros e s.
    destruct (step_transcripts e s) as [[H1 H2]|[[H1|H1] [H2|H2]]];
      split; intros Hne H0; congruence.
Qed.

(** C8.  On an engine [error] event: the kinds ["aborted"] and
    ["no-speech"] make no callback and leave [isListening] as it was; any
    other kind calls a supplied [onError] exactly once, with that kind; and
    the kinds ["not-allowed"] and ["network"] also set [isListening] to
    false. *)
Theorem error_classification (k : string) (s : state) :
  (k = "aborted" \/ k = "no-speech" ->
   callbacks (snd (on_error k s)) = callbacks s /\
   isListening (snd (on_error k s)) = isListening s) /\
  (k <> "aborted" -> k <> "no-speech" -> onError opts = true ->
   callbacks (snd (on_error k s)) = callbacks s ++ [OnError k]) /\
  (k = "not-allowed" \/ k = "network" ->
   isListening (snd (on_error k s)) = false).
Proof.
  split; [apply on_error_quiet | split].
  - intros Ha Hn Ho. destruct (on_error_reported k s Ha Hn) as [H _].
    now rewrite Ho in H.
  - intros [-> | ->]; hook_unfold; unfold on_error; cbn;
      destruct (onError opts); reflexivity.
Qed.

(** C9.  Whatever the engine's [start], [abort] and [stop] do -- return or
    throw, each call on its own -- the three public methods return normally.
    After [stopListening()] on a hook with an engine every flag has its
    stopped value and both handles are null; after [startListening()] on a
    supported hook the two listening flags are up if [start] returned and
    down if it threw. *)
Theorem public_methods_never_throw (s : state) :
  fst (startListening s) = Normal tt /\
  fst (stopListening s) = Normal tt /\
  fst (resetTranscript s) = Normal tt /\
  session_view (snd (stopListening s)) =
    (if recognitionRef s
     then (true, false, false, true, true, true, None, None,
           transcript s, finalTranscript s)
     else session_view s) /\
  (isListening (snd (startListening s)),
   isListeningRef (snd (startListening s))) =
    (if isSupported s && recognitionRef s
     then (negb (engine_throws (length (calls s)) PStart),
           negb (engine_throws (length (calls s)) PStart))
     else (isListening s, isListeningRef s)).
Proof.
  repeat split.
  - apply startListening_returns.
  - apply stopListening_returns.
  - apply stopListening_view.
  - apply startListening_flags.
Qed.

(** C10.  Without an engine, [stopListening()] returns at once and changes
    nothing: no flag is set, no timer cancelled, the whole state is the
    same. *)
Theorem stopListening_without_engine (s : state) :
  recognitionRef s = false ->
  stopListening s = (Normal tt, s).
Proof. apply stopListening_unbound. Qed.

(** ** Further properties of the controller *)

Lemma fire_bound (t : timer) (s : state) :
  recognitionRef (snd (fire t s)) = recognitionRef s.
Proof.
  unfold fire, callback_of.
  destruct (kind t); hook_unfold; cbn; hook_cases; auto.
Qed.

Lemma step_bound (e : event) (s : state) :
  recognitionRef (snd (step e s)) = recognitionRef s.
Proof.
  destruct e as [| | | |ev|k| |ms| |]; cbn [step].
  - hook_unfold. hook_cases; auto.
  - hook_unfold. hook_cases; auto.
  - reflexivity.
  - rewrite listener_state. destruct (recognitionRef s) eqn:E; [|exact E].
    hook_unfold. hook_cases; auto.
  - rewrite listener_state. destruct (recognitionRef s) eqn:E; [|exact E].
    destruct (on_result_rest ev s) as (_ & _ & _ & H & _). congruence.
  - rewrite listener_state. destruct (recognitionRef s) eqn:E; [|exact E].
    unfold on_error. hook_unfold. hook_cases; auto.
  - rewrite listener_state. destruct (recognitionRef s) eqn:E; [|exact E].
    hook_unfold. hook_cases; auto.
  - apply (elapse_preserves (fun s' => recognitionRef s' = recognitionRef s)).
    + intros s' t H _. now rewrite fire_bound.
    + intros s' n H. exact H.
    + reflexivity.
  - hook_unfold. hook_cases; auto.
  - reflexivity.
Qed.

Lemma run_bound (es : list event) (s : state) :
  recognitionRef (run es s) = recognitionRef s.
Proof.
  revert s. induction es as [|e es IH]; intros s; [reflexivity|].
  cbn [run fold_left]. fold (run es (snd (step e s))).
  now rewrite IH, step_bound.
Qed.

(** *** A session whose shadow flag is down is inert *)

Lemma fire_inert (t : timer) (s : state) :
  isListeningRef s = false ->
  isListeningRef (snd (fire t s)) = false /\
  calls (snd (fire t s)) = calls s /\
  isListening (snd (fire t s)) = isListening s.
Proof.
  intros H. unfold fire, callback_of.
  destruct (kind t); hook_unfold; cbn; rewrite H; cbn; auto.
Qed.

Lemma step_inert (e : event) (s : state) :
  e <> StartListening ->
  e <> StopListening ->
  isListeningRef s = false ->
  isListeningRef (snd (step e s)) = false /\
  calls (snd (step e s)) = calls s.
Proof.
  intros H1 H2 H. destruct e as [| | | |ev|k| |ms| |]; try congruence;
    cbn [step].
  - now split.
  - rewrite listener_state. destruct (recognitionRef s); [|now split].
    hook_unfold. hook_cases; auto.
  - rewrite listener_state. destruct (recognitionRef s); [|now split].
    destruct (on_result_rest ev s) as (_ & E1 & _ & _ & _ & _ & E6 & _).
    split; congruence.
  - rewrite listener_state. destruct (recognitionRef s); [|now split].
    unfold on_error. hook_unfold. hook_cases; auto.
  - rewrite listener_state. destruct (recognitionRef s); [|now split].
    hook_unfold. hook_cases; auto.
  - apply (elapse_preserves
             (fun s' => isListeningRef s' = false /\ calls s' = calls s)).
    + intros s' t [Ha Hb] _. destruct (fire_inert t s' Ha) as (Hc & Hd & _).
      split; congruence.
    + intros s' n Hs. exact Hs.
    + now split.
  - hook_unfold. hook_cases; auto.
  - now split.
Qed.

(** X: once the shadow listening flag is down -- after a stop, after the
    engine's [audioend] or [end], after the watchdog fired -- no event other
    than a call of [startListening()] or [stopListening()] makes the hook call
    the engine, and the flag stays down: no timer and no listener revives the
    session. *)
Theorem inert_until_caller_acts (s : state) (es : list event) :
  isListeningRef s = false ->
  caller_idle es ->
  calls (run es s) = calls s /\ isListeningRef (run es s) = false.
Proof.
  revert s. induction es as [|e es IH]; intros s H [Ha Hb]; [now split|].
  cbn [run fold_left]. fold (run es (snd (step e s))).
  assert (He1 : e <> StartListening) by (intros ->; apply Ha; now left).
  assert (He2 : e <> StopListening) by (intros ->; apply Hb; now left).
  destruct (step_inert e s He1 He2 H) as [Hl Hc].
  destruct (IH (snd (step e s)) Hl) as [Hc' Hl'].
  - split; intros Hin; [apply Ha | apply Hb]; now right.
  - split; congruence.
Qed.

(** *** What timers leave alone *)

Lemma fire_frame (t : timer) (s : state) :
  timer_frame (snd (fire t s)) = timer_frame s.
Proof.
  unfold timer_frame, fire, callback_of.
  destruct (kind t); hook_unfold; cbn; hook_cases; auto.
Qed.

(** X: the passing of time, whatever timers fire, never writes a stop flag,
    a transcript or a timer handle and never calls [onResult], [onEnd] or
    [onError]. *)
Theorem elapse_frame (ms : Z) (s : state) :
  timer_frame (run [Elapse ms] s) = timer_frame s.
Proof.
  change (run [Elapse ms] s) with (snd (elapse ms s)).
  apply (elapse_preserves (fun s' => timer_frame s' = timer_frame s)).
  - intros s' t H _. now rewrite fire_frame.
  - intros s' n H. exact H.
  - reflexivity.
Qed.

(** *** The timer table holds at most the watchdog *)

Lemma in_drop_handle (h : option nat) (p : list timer) (t : timer) :
  In t (drop_handle h p) -> In t p.
Proof.
  destruct h as [id|]; cbn; [|auto].
  intros H. now apply in_drop_timer in H.
Qed.

Lemma stopListening_pending (s : state) :
  pending (snd (stopListening s)) =
  if recognitionRef s
  then drop_handle (audioendTimeoutRef s)
         (drop_handle (inactivityTimeoutRef s) (pending s))
  else pending s.
Proof.
  hook_unfold. unfold drop_handle. cbn.
  destruct (recognitionRef s); hook_cases; auto.
Qed.

Lemma cleanup_pending (s : state) :
  pending (snd (cleanup s)) =
  drop_handle (audioendTimeoutRef s)
    (drop_handle (inactivityTimeoutRef s) (pending s)).
Proof.
  hook_unfold. unfold drop_handle. hook_cases; auto.
Qed.

(** Where a pending timer comes from: it was pending before, or it is the
    watchdog a [result] event armed on a hook with an engine and a positive
    [timeout]. *)
Lemma step_pending_origin (e : event) (s : state) (t : timer) :
  In t (pending (snd (step e s))) ->
  In t (pending s) \/
  (kind t = InactivityTimer /\ recognitionRef s = true /\
   (0 < timeout opts)%Z).
Proof.
  destruct e as [| | | |ev|k| |ms| |]; cbn [step].
  - hook_unfold. hook_cases; auto.
  - rewrite stopListening_pending. destruct (recognitionRef s); [|auto].
    intros H. left. now apply in_drop_handle, in_drop_handle in H.
  - auto.
  - rewrite listener_state. destruct (recognitionRef s); [|auto].
    destruct (on_audioend_schedules_nothing s) as [-> _]. auto.
  - rewrite listener_state. destruct (recognitionRef s) eqn:Hr; [|auto].
    destruct (on_result_rest ev s) as [Hp _].
    assert (Hc : forall u, In u (cleared s) -> In u (pending s)).
    { unfold cleared. intros u. destruct (inactivityTimeoutRef s); [|auto].
      intros H. now apply in_drop_timer in H. }
    destruct (0 <? timeout opts)%Z eqn:Ht; cbn [andb] in Hp;
      [destruct (isListeningRef s)|]; destruct Hp as [-> _]; auto.
    intros H. apply in_app_iff in H as [H|[<-|[]]]; [auto|].
    right. apply Z.ltb_lt in Ht. auto.
  - rewrite listener_state. destruct (recognitionRef s); [|auto].
    unfold on_error. hook_unfold. hook_cases; auto.
  - rewrite listener_state. destruct (recognitionRef s); [|auto].
    hook_unfold. hook_cases; auto.
  - intros H. left. revert t H.
    apply (elapse_preserves
             (fun s' => forall t, In t (pending s') -> In t (pending s))).
    + intros s' u H _ t Hin. destruct (fire_timers u s') as [Hp _].
      rewrite Hp in Hin. apply in_drop_timer in Hin as [Hin _]. auto.
    + intros s' n H. exact H.
    + auto.
  - rewrite cleanup_pending.
    intros H. left. now apply in_drop_handle, in_drop_handle in H.
  - auto.
Qed.

Lemma step_watchdog_only (e : event) (s : state) :
  watchdog_only s -> watchdog_only (snd (step e s)).
Proof.
  intros [Hk He]. split.
  - intros t Hin. destruct (step_pending_origin e s t Hin) as [H|[H _]]; auto.
  - rewrite step_bound. intros Hr. specialize (He Hr).
    destruct (pending (snd (step e s))) as [|t p] eqn:E; [reflexivity|].
    assert (Hin : In t (pending (snd (step e s)))) by (rewrite E; now left).
    destruct (step_pending_origin e s t Hin) as [H|(_ & H & _)].
    + rewrite He in H. destruct H.
    + congruence.
Qed.

Lemma run_watchdog_only (es : list event) (s : state) :
  watchdog_only s -> watchdog_only (run es s).
Proof.
  revert s. induction es as [|e es IH]; intros s H; [exact H|].
  cbn [run fold_left]. apply IH. now apply step_watchdog_only.
Qed.

Lemma reachable_watchdog_only (s : state) : reachable s -> watchdog_only s.
Proof.
  intros [b [es ->]]. apply run_watchdog_only.
  split; [intros t [] | reflexivity].
Qed.

Lemma single_watchdog_shape (s : state) :
  reachable s ->
  pending s = [] \/
  exists (id : nat) (d : Z),
    pending s = [{| tid := id; due := d; kind := InactivityTimer |}] /\
    inactivityTimeoutRef s = Some id.
Proof.
  intros Hr. destruct (reachable_watchdog_only s Hr) as [Hk _].
  destruct (reachable_consistent s Hr) as [(Hnd & _ & Hh) _].
  destruct (pending s) as [|t p]; [now left|]. right.
  assert (Ht : inactivityTimeoutRef s = Some (tid t))
    by (apply Hh; [now left | apply Hk; now left]).
  destruct p as [|u p].
  - exists (tid t), (due t). split; [|exact Ht].
    destruct t as [i d k]. cbn. f_equal.
    specialize (Hk _ (or_introl eq_refl)). cbn in Hk. now subst.
  - exfalso.
    assert (Hu : inactivityTimeoutRef s = Some (tid u))
      by (apply Hh; [right; now left | apply Hk; right; now left]).
    cbn in Hnd. inversion Hnd as [|x l Hx _]; subst.
    apply Hx. left. congruence.
Qed.

Lemma drop_handle_single (s : state) :
  reachable s ->
  drop_handle (inactivityTimeoutRef s) (pending s) = [].
Proof.
  intros Hr. destruct (single_watchdog_shape s Hr) as [E|(id & d & E & Eh)];
    rewrite E.
  - now destruct (inactivityTimeoutRef s).
  - rewrite Eh. unfold drop_handle, drop_timer. cbn.
    now rewrite Nat.eqb_refl.
Qed.

(** X: in every state the hook can reach, at most one timer is pending; when
    one is, it is the inactivity watchdog and [inactivityTimeoutRef] holds
    its identifier.  In particular no restart timer is ever pending. *)
Theorem single_watchdog (s : state) :
  reachable s ->
  pending s = [] \/
  exists (id : nat) (d : Z),
    pending s = [{| tid := id; due := d; kind := InactivityTimer |}] /\
    inactivityTimeoutRef s = Some id.
Proof. apply single_watchdog_shape. Qed.

(** X: on a reachable state, [stopListening()] and the effect cleanup each
    leave no timer pending. *)
Theorem stop_and_cleanup_cancel_timers (s : state) :
  reachable s ->
  pending (run [StopListening] s) = [] /\
  pending (run [Cleanup] s) = [].
Proof.
  intros Hr.
  change (run [StopListening] s) with (snd (stopListening s)).
  change (run [Cleanup] s) with (snd (cleanup s)).
  rewrite stopListening_pending, cleanup_pending, (drop_handle_single s Hr).
  split; [|now destruct (audioendTimeoutRef s)].
  destruct (recognitionRef s) eqn:E; [now destruct (audioendTimeoutRef s)|].
  now apply (reachable_watchdog_only s Hr).
Qed.

(** X: with [timeout] at 0 or below the watchdog is off: whatever happens
    after the mount, no timer is ever pending. *)
Theorem watchdog_disabled (has_engine : bool) (es : list event) :
  (timeout opts <= 0)%Z ->
  pending (run es (mount has_engine)) = [].
Proof.
  intros Ht.
  assert (H : forall es s, pending s = [] -> pending (run es s) = []).
  { clear es. induction es as [|e es IH]; intros s Hs; [exact Hs|].
    cbn [run fold_left]. apply IH.
    destruct (pending (snd (step e s))) as [|t p] eqn:E; [reflexivity|].
    assert (Hin : In t (pending (snd (step e s)))) by (rewrite E; now left).
    destruct (step_pending_origin e s t Hin) as [Hi|(_ & _ & Hi)].
    - rewrite Hs in Hi. destruct Hi.
    - lia. }
  now apply H.
Qed.

Lemma elapse_nothing_due (ms : Z) (s : state) :
  filter (is_due (now s + ms)%Z) (pending s) = [] ->
  elapse ms s = (Normal tt, set_now (Z.max (now s) (now s + ms)%Z) s).
Proof.
  intros H. unfold elapse, bind, read, modify.
  assert (Hf : forall fuel, fire_due fuel (now s + ms)%Z s = (Normal tt, s)).
  { intros [|fuel]; [reflexivity|].
    cbn [fire_due]. unfold bind, read. now rewrite H. }
  now rewrite Hf.
Qed.

(** X: a [result] event postpones the watchdog.  On a reachable state whose
    shadow flag is up, with [timeout] within the 32-bit range of timer
    delays, after a [result] event and any delay shorter than [timeout] the
    hook has called no engine primitive, [isListening] is as it was, and the
    one pending timer is the watchdog due [timeout] after the event. *)
Theorem watchdog_not_early (ev : result_event) (d : Z) (s : state) :
  reachable s ->
  isListeningRef s = true ->
  (0 <= d < timeout opts)%Z ->
  (timeout opts <= 2147483647)%Z ->
  calls (run [Result ev; Elapse d] s) = calls s /\
  isListening (run [Result ev; Elapse d] s) = isListening s /\
  pending (run [Result ev; Elapse d] s) =
    [{| tid := next_timer s; due := (now s + timeout opts)%Z;
        kind := InactivityTimer |}].
Proof.
  intros Hreach Hl Hd Hmax.
  destruct (reachable_consistent s Hreach) as [_ Hfl].
  destruct (Hfl Hl) as [_ Hr].
  change (run [Result ev; Elapse d] s)
    with (snd (elapse d (snd (listener (on_result ev) s)))).
  rewrite listener_state, Hr.
  destruct (on_result_rest ev s) as (Hp & _ & _ & _ & E4 & E5 & E6 & _).
  assert (Hcond : (0 <? timeout opts)%Z && isListeningRef s = true)
    by (rewrite Hl, andb_true_r; apply Z.ltb_lt; lia).
  rewrite Hcond in Hp. destruct Hp as (Hp & _).
  rewrite host_delay_small in Hp by lia.
  unfold cleared in Hp.
  fold (drop_handle (inactivityTimeoutRef s) (pending s)) in Hp.
  rewrite (drop_handle_single s Hreach) in Hp. cbn [app] in Hp.
  set (s1 := snd (on_result ev s)) in *.
  rewrite elapse_nothing_due.
  - cbn [snd]. now rewrite <- E6, <- E4, <- Hp.
  - rewrite Hp. cbn [filter]. unfold is_due. cbn [due].
    replace (now s + timeout opts <=? now s1 + d)%Z with false;
      [reflexivity|].
    symmetry. apply Z.leb_gt. rewrite E5. lia.
Qed.

(** X: on a runtime without a speech engine the hook never listens: whatever
    the caller, the clock and stray events do after the mount, no engine
    primitive is called, no callback is made, no timer is armed and
    [isListening] stays false. *)
Theorem unsupported_never_listens (es : list event) :
  calls (run es (mount false)) = [] /\
  callbacks (run es (mount false)) = [] /\
  pending (run es (mount false)) = [] /\
  isListening (run es (mount false)) = false.
Proof.
  assert (H : forall es s,
             isSupported s = false /\ recognitionRef s = false /\
             calls s = [] /\ callbacks s = [] /\ pending s = [] /\
             isListening s = false ->
             calls (run es s) = [] /\ callbacks (run es s) = [] /\
             pending (run es s) = [] /\ isListening (run es s) = false).
  { clear es. induction es as [|e es IH];
      intros s (H1 & H2 & H4 & H5 & H6 & H7); [auto|].
    cbn [run fold_left]. apply IH.
    destruct e as [| | | |ev|k| |ms| |]; cbn [step];
      rewrite ?listener_state, ?H2; auto 10.
    - unfold startListening, bind, read, ret. rewrite H1. cbn. auto 10.
    - rewrite (stopListening_unbound s H2). cbn. auto 10.
    - rewrite elapse_nothing_due by (now rewrite H6). cbn. auto 10.
    - pose proof (cleanup_pending s) as Hp. rewrite H6 in Hp.
      replace (drop_handle (audioendTimeoutRef s)
                 (drop_handle (inactivityTimeoutRef s) []))
        with (@nil timer) in Hp
        by (now destruct (audioendTimeoutRef s), (inactivityTimeoutRef s)).
      rewrite Hp. hook_unfold. hook_cases; auto 10. }
  apply H. cbn. auto 10.
Qed.

(** *** The [end] listener *)

Lemma on_end_manual (s : state) :
  manuallyStoppedRef s = true ->
  callbacks (snd (on_end s)) = callbacks s /\
  isListening (snd (on_end s)) = false /\
  isListeningRef (snd (on_end s)) = false /\
  manuallyStopped (snd (on_end s)) = false /\
  manuallyStoppedRef (snd (on_end s)) = false /\
  stopRequestedRef (snd (on_end s)) = stopRequestedRef s /\
  forceStoppedRef (snd (on_end s)) = forceStoppedRef s.
Proof.
  intros H. hook_unfold.
  destruct (continuous opts); repeat (progress (cbn; rewrite ?H));
    auto 10.
Qed.

Lemma on_end_natural (s : state) :
  manuallyStoppedRef s = false ->
  callbacks (snd (on_end s)) =
    callbacks s ++ (if onEnd opts then [OnEnd] else []) /\
  isListening (snd (on_end s)) = (continuous opts && isListening s) /\
  isListeningRef (snd (on_end s)) = false /\
  manuallyStoppedRef (snd (on_end s)) = false /\
  calls (snd (on_end s)) = calls s /\
  pending (snd (on_end s)) = pending s.
Proof.
  intros H. hook_unfold.
  destruct (onEnd opts), (continuous opts);
    repeat (progress (cbn; rewrite ?H, ?app_nil_r)); auto 10.
Qed.

(** X: the engine's [end] event.  After a stop by the caller no [onEnd] is
    reported, [isListening] is false and the manual-stop flag is used up
    (cell and ref false again), the stop-request and force-stop flags staying
    as they are.  Otherwise a supplied [onEnd] is called once and the
    listener calls no engine primitive and arms no timer; [isListening] drops
    to false only when [continuous] is off, so in continuous mode the public
    flag keeps its value although the shadow flag is now down. *)
Theorem end_classification (s : state) :
  (manuallyStoppedRef s = true ->
   callbacks (snd (on_end s)) = callbacks s /\
   isListening (snd (on_end s)) = false /\
   isListeningRef (snd (on_end s)) = false /\
   manuallyStopped (snd (on_end s)) = false /\
   manuallyStoppedRef (snd (on_end s)) = false /\
   stopRequestedRef (snd (on_end s)) = stopRequestedRef s /\
   forceStoppedRef (snd (on_end s)) = forceStoppedRef s) /\
  (manuallyStoppedRef s = false ->
   callbacks (snd (on_end s)) =
     callbacks s ++ (if onEnd opts then [OnEnd] else []) /\
   isListening (snd (on_end s)) = (continuous opts && isListening s) /\
   isListeningRef (snd (on_end s)) = false /\
   manuallyStoppedRef (snd (on_end s)) = false /\
   calls (snd (on_end s)) = calls s /\
   pending (snd (on_end s)) = pending s).
Proof. split; [apply on_end_manual | apply on_end_natural]. Qed.

(** *** The public methods make no callback *)

Lemma methods_callbacks (s : state) :
  callbacks (snd (startListening s)) = callbacks s /\
  callbacks (snd (stopListening s)) = callbacks s /\
  callbacks (snd (resetTranscript s)) = callbacks s.
Proof.
  repeat split; hook_unfold; cbn; hook_cases; auto.
Qed.

(** X: [startListening()], [stopListening()] and [resetTranscript()] never
    call [onResult], [onEnd] or [onError], whatever the engine does: a
    [start] that throws is logged to the console and reported to nobody. *)
Theorem public_methods_make_no_callback (s : state) :
  callbacks (snd (startListening s)) = callbacks s /\
  callbacks (snd (stopListening s)) = callbacks s /\
  callbacks (snd (resetTranscript s)) = callbacks s.
Proof. apply methods_callbacks. Qed.

(** X: a stop by the caller followed by the engine's [end] event reports
    nothing: on a hook with an engine the callback log is unchanged, both
    listening flags and both manual-stop flags are false, and the
    stop-request and force-stop flags are still set. *)
Theorem end_after_stop_is_silent (s : state) :
  recognitionRef s = true ->
  callbacks (run [StopListening; End] s) = callbacks s /\
  session_view (run [StopListening; End] s) =
    (true, false, false, false, false, true, None, None,
     transcript s, finalTranscript s).
Proof.
  intros Hr.
  change (run [StopListening; End] s)
    with (snd (listener on_end (snd (stopListening s)))).
  destruct (stopListening_bound s Hr) as (_ & Hv & Hr').
  destruct (methods_callbacks s) as (_ & Hc & _).
  rewrite listener_state, Hr'.
  set (s1 := snd (stopListening s)) in *.
  unfold session_view in Hv.
  injection Hv as V1 V2 V3 V4 V5 V6 V7 V8 V9 V10.
  destruct (on_end_manual s1 V5) as (E1 & E2 & E3 & E4 & E5 & E6 & E7).
  split; [congruence|].
  unfold session_view. rewrite E2, E3, E4, E5, E6, E7, V1, V6.
  assert (F : inactivityTimeoutRef (snd (on_end s1)) = inactivityTimeoutRef s1
              /\ audioendTimeoutRef (snd (on_end s1)) = audioendTimeoutRef s1
              /\ transcript (snd (on_end s1)) = transcript s1
              /\ finalTranscript (snd (on_end s1)) = finalTranscript s1)
    by (hook_unfold; cbn; hook_cases; auto).
  destruct F as (F1 & F2 & F3 & F4). now rewrite F1, F2, F3, F4, V7, V8, V9, V10.
Qed.

(** *** Start after stop *)

Lemma startListening_view (s : state) :
  isSupported s = true ->
  recognitionRef s = true ->
  engine_throws (length (calls s)) PStart = false ->
  session_view (snd (startListening s)) =
    (false, true, true, false, false, false,
     inactivityTimeoutRef s, audioendTimeoutRef s, "", "").
Proof.
  intros H1 H2 H3. hook_unfold. unfold session_view. cbn.
  rewrite H1, H2. cbn. now rewrite H3.
Qed.

Lemma stopListening_supported (s : state) :
  isSupported (snd (stopListening s)) = isSupported s.
Proof. hook_unfold. cbn. hook_cases; auto. Qed.

(** X: a stop leaves no residue for the next start.  On a supported hook
    whose engine accepts [start], [stopListening()] followed by
    [startListening()] gives a listening session with every stop flag
    cleared, both timer handles null and both transcripts empty, whatever
    the state was before. *)
Theorem stop_then_start_is_clean (s : state) :
  isSupported s = true ->
  recognitionRef s = true ->
  (forall n, engine_throws n PStart = false) ->
  session_view (run [StopListening; StartListening] s) =
    (false, true, true, false, false, false, None, None, "", "").
Proof.
  intros H1 H2 H3.
  change (run [StopListening; StartListening] s)
    with (snd (startListening (snd (stopListening s)))).
  destruct (stopListening_bound s H2) as (_ & Hv & Hr').
  rewrite startListening_view; auto.
  - unfold session_view in Hv. injection Hv as _ _ _ _ _ _ V7 V8 _ _.
    now rewrite V7, V8.
  - now rewrite stopListening_supported.
Qed.

(** *** What a [result] event reports *)

Lemma on_result_callbacks (ev : result_event) (s : state) :
  callbacks (snd (on_result ev s)) =
    callbacks s ++
    (if onResult opts
     then (if truthy (finalText ev)
           then [OnResult (finalText ev) true] else []) ++
          (if truthy (interimTranscript ev)
           then [OnResult (interimTranscript ev) false] else [])
     else []).
Proof.
  hook_unfold.
  destruct (inactivityTimeoutRef s); cbn;
    destruct ((0 <? timeout opts)%Z), (isListeningRef s),
      (truthy (finalText ev)), (truthy (interimTranscript ev)),
      (onResult opts); cbn; rewrite <- ?app_assoc, ?app_nil_r; reflexivity.
Qed.

(** X: what a [result] event does with its hypotheses.  The concatenation of
    the final ones is appended to [finalTranscript] (nothing else is ever
    written there by the listener), and a supplied [onResult] is called with
    the final text first and the interim text second, each only when it is
    not empty. *)
Theorem result_reports (ev : result_event) (s : state) :
  finalTranscript (snd (on_result ev s)) =
    String.append (finalTranscript s) (joined true (new_results ev)) /\
  callbacks (snd (on_result ev s)) =
    callbacks s ++
    (if onResult opts
     then (if truthy (joined true (new_results ev))
           then [OnResult (joined true (new_results ev)) true] else []) ++
          (if truthy (joined false (new_results ev))
           then [OnResult (joined false (new_results ev)) false] else [])
     else []).
Proof.
  rewrite <- finalText_joined, <- interimTranscript_joined. split.
  - destruct (on_result_transcripts ev s) as [_ H]. rewrite H.
    destruct (truthy (finalText ev)) eqn:E; [reflexivity|].
    apply truthy_false in E. rewrite E. now rewrite append_empty_r.
  - apply on_result_callbacks.
Qed.

(** *** [finalTranscript] only grows *)

Lemma fire_finalTranscript (t : timer) (s : state) :
  finalTranscript (snd (fire t s)) = finalTranscript s.
Proof. now destruct (fire_transcripts t s). Qed.

Lemma step_finalTranscript (e : event) (s : state) :
  e <> StartListening ->
  e <> ResetTranscript ->
  exists suffix : string,
    finalTranscript (snd (step e s)) =
    String.append (finalTranscript s) suffix.
Proof.
  intros H1 H2.
  destruct e as [| | | |ev|k| |ms| |]; try congruence; cbn [step].
  - exists "". rewrite append_empty_r.
    pose proof (stopListening_view s) as H. unfold session_view in H.
    destruct (recognitionRef s); injection H as _ _ _ _ _ _ _ _ _ H; exact H.
  - exists "". rewrite append_empty_r, listener_state.
    destruct (recognitionRef s); [|reflexivity].
    hook_unfold. hook_cases; auto.
  - rewrite listener_state. destruct (recognitionRef s).
    + destruct (on_result_transcripts ev s) as [_ H]. rewrite H.
      destruct (truthy (finalText ev)); [now exists (finalText ev)|].
      exists "". now rewrite append_empty_r.
    + exists "". now rewrite append_empty_r.
  - exists "". rewrite append_empty_r, listener_state.
    destruct (recognitionRef s); [|reflexivity].
    unfold on_error. hook_unfold. hook_cases; auto.
  - exists "". rewrite append_empty_r, listener_state.
    destruct (recognitionRef s); [|reflexivity].
    hook_unfold. hook_cases; auto.
  - exists "". rewrite append_empty_r.
    apply (elapse_preserves
             (fun s' => finalTranscript s' = finalTranscript s)).
    + intros s' t H _. now rewrite fire_finalTranscript.
    + intros s' n H. exact H.
    + reflexivity.
  - exists "". rewrite append_empty_r. hook_unfold. hook_cases; auto.
  - exists "". now rewrite append_empty_r.
Qed.

(** X: between two clearings [finalTranscript] only grows: over any events
    other than [startListening()] and [resetTranscript()], the old value is
    a prefix of the new one. *)
Theorem finalTranscript_append_only (es : list event) (s : state) :
  ~ In StartListening es ->
  ~ In ResetTranscript es ->
  exists suffix : string,
    finalTranscript (run es s) = String.append (finalTranscript s) suffix.
Proof.
  revert s. induction es as [|e es IH]; intros s Ha Hb.
  - exists "". now rewrite append_empty_r.
  - cbn [run fold_left]. fold (run es (snd (step e s))).
    assert (He1 : e <> StartListening) by (intros ->; apply Ha; now left).
    assert (He2 : e <> ResetTranscript) by (intros ->; apply Hb; now left).
    destruct (step_finalTranscript e s He1 He2) as [u Hu].
    destruct (IH (snd (step e s))) as [v Hv].
    + intros Hin. apply Ha. now right.
    + intros Hin. apply Hb. now right.
    + exists (String.append u v). now rewrite Hv, Hu, append_assoc.
Qed.

End Controller.

(** ** Scenarios *)

Lemma listening_reached :
  listening = run default_options never_throws [StartListening] (mount true).
Proof. reflexivity. Qed.

Lemma no_restart_after_stopListening_witness :
  ~ In StartListening [AudioEnd; Elapse 100; End; Elapse 5000] /\
  no_start_since listening_with_restart_in_flight
    (run default_options never_throws
         (StopListening :: [AudioEnd; Elapse 100; End; Elapse 5000])
         listening_with_restart_in_flight).
Proof.
  assert (H : ~ In StartListening [AudioEnd; Elapse 100; End; Elapse 5000])
    by (cbn; intuition discriminate).
  split; [exact H|].
  exact (no_restart_after_stopListening default_options never_throws
           listening_with_restart_in_flight _ H).
Defined.

(** C2.  Start, then [audioend], then 100 ms: the listener has armed no
    timer and the engine's [start] was called once only, by
    [startListening()] itself; the restart the listener is written for never
    happens. *)
Theorem audioend_restart_not_scheduled :
  pending (run default_options never_throws [StartListening; AudioEnd]
               (mount true)) = [] /\
  audioendTimeoutRef (run default_options never_throws
                          [StartListening; AudioEnd] (mount true)) = None /\
  count_calls PStart
    (calls (run default_options never_throws
                [StartListening; AudioEnd; Elapse 100] (mount true))) = 1.
Proof. vm_compute. repeat split. Qed.

(** C3 as stated fails: a [result] event with a final hypothesis only leaves
    the interim text of the previous event in [transcript]. *)
Lemma result_keeps_stale_interim :
  ~ (forall (o : options) (ev : result_event) (s : state),
        transcript (snd (on_result o ev s)) = joined false (new_results ev)).
Proof.
  intros H.
  specialize (H default_options final_milk
                (run default_options never_throws [Result interim_mil]
                     listening)).
  vm_compute in H. discriminate H.
Qed.

(** C4 as stated fails: the watchdog is armed by [result] events only, so
    3000 ms of silence right after the start abort nothing. *)
Lemma watchdog_silent_without_result :
  ~ (forall (o : options) (thr : nat -> primitive -> bool) (s : state),
        timeout o = 3000%Z ->
        reachable o thr s ->
        isListening s = true ->
        isListeningRef s = true ->
        count_calls PAbort (calls (run o thr [Elapse 3000] s)) =
          S (count_calls PAbort (calls s)) /\
        isListening (run o thr [Elapse 3000] s) = false /\
        count_OnError (callbacks (run o thr [Elapse 3000] s)) =
          count_OnError (callbacks s)).
Proof.
  intros H.
  destruct (H default_options never_throws listening) as [Ha _].
  - reflexivity.
  - exists true, [StartListening]. reflexivity.
  - reflexivity.
  - reflexivity.
  - vm_compute in Ha. discriminate Ha.
Qed.

Lemma watchdog_fires_after_result_witness :
  count_calls PAbort
    (calls (run default_options never_throws
                [Result interim_mil; Elapse 3000] listening)) =
    S (count_calls PAbort (calls listening)) /\
  count_OnError
    (callbacks (run default_options never_throws
                    [Result interim_mil; Elapse 3000] listening)) =
    count_OnError (callbacks listening) /\
  ((forall n, never_throws n PAbort = false) ->
   isListening (run default_options never_throws
                    [Result interim_mil; Elapse 3000] listening) = false /\
   isListeningRef (run default_options never_throws
                       [Result interim_mil; Elapse 3000] listening) = false).
Proof.
  apply (watchdog_fires_after_result default_options never_throws
           interim_mil listening).
  - exists true, [StartListening]. reflexivity.
  - reflexivity.
  - reflexivity.
Defined.

Lemma result_frame_witness :
  finalTranscript (snd (on_result default_options interim_mil listening)) =
    finalTranscript listening /\
  transcript (snd (on_result default_options final_milk listening)) =
    transcript listening.
Proof.
  split.
  - apply (proj1 (result_frame default_options interim_mil listening)).
    reflexivity.
  - apply (proj2 (result_frame default_options final_milk listening)).
    reflexivity.
Defined.

(** C7 as stated fails: when [start] is called the hook still shows the
    texts of the last render. *)
Lemma start_sees_previous_transcripts :
  ~ (forall (thr : nat -> primitive -> bool) (s : state),
        isSupported s = true ->
        recognitionRef s = true ->
        exists c : engine_call,
          calls (snd (startListening thr s)) = calls s ++ [c] /\
          prim c = PStart /\
          seen_transcript c = "" /\
          seen_finalTranscript c = "").
Proof.
  intros H.
  destruct (H never_throws
              (run default_options never_throws
                   [Result interim_mil; Result final_milk; Render] listening))
    as (c & Hc & _ & Ht & _); [reflexivity | reflexivity |].
  vm_compute in Hc. injection Hc as Hc. subst c. discriminate Ht.
Qed.

Lemma transcripts_cleared_together_witness :
  calls (snd (startListening never_throws
                (run default_options never_throws
                     [Result interim_mil; Result final_milk; Render]
                     listening))) =
    calls (run default_options never_throws
               [Result interim_mil; Result final_milk; Render] listening) ++
    [{| prim := PStart; seen_transcript := "mil";
        seen_finalTranscript := "milk";
        written_transcript := ""; written_finalTranscript := "" |}] /\
  rendered_transcript
    (run default_options never_throws [StartListening; Render]
         (run default_options never_throws
              [Result interim_mil; Result final_milk; Render] listening)) =
    "".
Proof.
  destruct (proj1 (transcripts_cleared_together default_options
                     never_throws)
                  (run default_options never_throws
                       [Result interim_mil; Result final_milk; Render]
                       listening))
    as (Hc & _ & _ & Hr & _); [reflexivity | reflexivity |].
  split; [exact Hc | exact Hr].
Defined.

Lemma error_classification_witness :
  (callbacks (snd (on_error default_options "no-speech" listening)) =
     callbacks listening /\
   isListening (snd (on_error default_options "no-speech" listening)) =
     isListening listening) /\
  callbacks (snd (on_error default_options "audio-capture" listening)) =
    callbacks listening ++ [OnError "audio-capture"] /\
  isListening (snd (on_error default_options "not-allowed" listening)) =
    false.
Proof.
  split; [|split].
  - apply (proj1 (error_classification default_options "no-speech"
                    listening)).
    right. reflexivity.
  - apply (proj1 (proj2 (error_classification default_options
                           "audio-capture" listening))).
    + discriminate.
    + discriminate.
    + reflexivity.
  - apply (proj2 (proj2 (error_classification default_options
                           "not-allowed" listening))).
    left. reflexivity.
Defined.

Lemma stopListening_without_engine_witness :
  recognitionRef (mount false) = false /\
  stopListening always_throws (mount false) = (Normal tt, mount false).
Proof.
  split; [reflexivity|].
  apply (stopListening_without_engine always_throws (mount false)).
  reflexivity.
Defined.

(** ** Further scenarios *)

Lemma inert_until_caller_acts_witness :
  isListeningRef
    (run default_options never_throws [AudioEnd] listening) = false /\
  calls (run default_options never_throws
             [End; Elapse 5000; Result interim_mil; Error "network"]
             (run default_options never_throws [AudioEnd] listening)) =
    calls (run default_options never_throws [AudioEnd] listening).
Proof.
  split; [reflexivity|].
  apply (inert_until_caller_acts default_options never_throws).
  - reflexivity.
  - split; cbn; intuition discriminate.
Defined.

Lemma single_watchdog_witness :
  pending (run default_options never_throws [Result interim_mil] listening)
    = [] \/
  exists (id : nat) (d : Z),
    pending (run default_options never_throws [Result interim_mil] listening)
      = [{| tid := id; due := d; kind := InactivityTimer |}] /\
    inactivityTimeoutRef
      (run default_options never_throws [Result interim_mil] listening)
      = Some id.
Proof.
  apply (single_watchdog default_options never_throws).
  exists true, [StartListening; Result interim_mil]. reflexivity.
Defined.

Lemma stop_and_cleanup_cancel_timers_witness :
  pending (run default_options never_throws [StopListening]
               (run default_options never_throws [Result interim_mil]
                    listening)) = [] /\
  pending (run default_options never_throws [Cleanup]
               (run default_options never_throws [Result interim_mil]
                    listening)) = [].
Proof.
  apply (stop_and_cleanup_cancel_timers default_options never_throws).
  exists true, [StartListening; Result interim_mil]. reflexivity.
Defined.

Lemma watchdog_disabled_witness :
  (timeout no_watchdog_options <= 0)%Z /\
  pending (run no_watchdog_options never_throws
               [StartListening; Result interim_mil; Elapse 10000]
               (mount true)) = [].
Proof.
  assert (H : (timeout no_watchdog_options <= 0)%Z) by (cbn; lia).
  split; [exact H|].
  exact (watchdog_disabled no_watchdog_options never_throws true _ H).
Defined.

Lemma watchdog_not_early_witness :
  calls (run default_options never_throws
             [Result interim_mil; Elapse 2999] listening) =
    calls listening /\
  isListening (run default_options never_throws
                   [Result interim_mil; Elapse 2999] listening) =
    isListening listening /\
  pending (run default_options never_throws
               [Result interim_mil; Elapse 2999] listening) =
    [{| tid := next_timer listening;
        due := (now listening + timeout default_options)%Z;
        kind := InactivityTimer |}].
Proof.
  apply (watchdog_not_early default_options never_throws interim_mil 2999
           listening).
  - exists true, [StartListening]. reflexivity.
  - reflexivity.
  - cbn. lia.
  - cbn. lia.
Defined.

Lemma end_classification_witness :
  isListening
    (snd (on_end default_options
            (run default_options never_throws [StopListening] listening))) =
    false /\
  callbacks (snd (on_end default_options listening)) =
    callbacks listening ++ [OnEnd].
Proof.
  split.
  - apply (proj1 (end_classification default_options
                    (run default_options never_throws [StopListening]
                         listening))).
    reflexivity.
  - apply (proj2 (end_classification default_options listening)).
    reflexivity.
Defined.

Lemma end_after_stop_is_silent_witness :
  recognitionRef listening = true /\
  callbacks (run default_options never_throws [StopListening; End]
                 listening) = callbacks listening.
Proof.
  split; [reflexivity|].
  apply (end_after_stop_is_silent default_options never_throws listening).
  reflexivity.
Defined.

Lemma stop_then_start_is_clean_witness :
  session_view
    (run default_options never_throws [StopListening; StartListening]
         (run default_options never_throws
              [Result interim_mil; Result final_milk] listening)) =
    (false, true, true, false, false, false, None, None, "", "").
Proof.
  apply (stop_then_start_is_clean default_options never_throws);
    reflexivity.
Defined.

Lemma finalTranscript_append_only_witness :
  exists suffix : string,
    finalTranscript
      (run default_options never_throws
           [Result final_milk; AudioEnd; StopListening; End]
           (run default_options never_throws [Result final_milk] listening)) =
    String.append
      (finalTranscript
         (run default_options never_throws [Result final_milk] listening))
      suffix.
Proof.
  apply (finalTranscript_append_only default_options never_throws);
    cbn; intuition discriminate.
Defined.


(** ** API base URL *)

Lemma normalizeBaseUrl_cons (c : ascii) (r : string) :
  normalizeBaseUrl (String c r) =
  if slashes_to_end (String c r) then EmptyString
  else String c (normalizeBaseUrl r).
Proof. reflexivity. Qed.

Lemma slashes_to_end_cons (c : ascii) (r : string) :
  slashes_to_end (String c r) =
  Ascii.eqb c "/"%char &&
  match r with
  | EmptyString => true
  | String _ _ => slashes_to_end r
  end.
Proof. reflexivity. Qed.

Lemma slashes_to_end_slashes (n : nat) : slashes_to_end (slashes (S n)) = true.
Proof.
  induction n as [|n IH]; [reflexivity|].
  change (slashes (S (S n))) with (String "/"%char (slashes (S n))).
  rewrite slashes_to_end_cons. cbn [slashes] in *. now rewrite IH.
Qed.

Lemma slashes_to_end_inv (u : string) :
  slashes_to_end u = true -> exists n, u = slashes (S n).
Proof.
  induction u as [|c r IH]; [discriminate|].
  rewrite slashes_to_end_cons. intros H. apply andb_prop in H as [Hc Hr].
  apply Ascii.eqb_eq in Hc. subst c. destruct r as [|d r'].
  - now exists 0.
  - destruct (IH Hr) as [n ->]. now exists (S n).
Qed.

Lemma ends_with_slash_slashes (n : nat) :
  ends_with_slash (slashes (S n)) = true.
Proof. induction n as [|n IH]; [reflexivity | exact IH]. Qed.

Lemma slashes_add (m n : nat) :
  String.append (slashes m) (slashes n) = slashes (m + n).
Proof. induction m as [|m IH]; cbn; [reflexivity | now rewrite IH]. Qed.

Lemma prefix_of_slashes (r w : string) (n : nat) :
  String.append r w = slashes n -> exists m, r = slashes m.
Proof.
  revert n. induction r as [|c r IH]; intros n H; [now exists 0|].
  destruct n as [|n]; cbn in H; [discriminate|].
  injection H as -> H. destruct (IH n H) as [m ->]. now exists (S m).
Qed.

Lemma ends_with_slash_tail (c : ascii) (r : string) :
  ends_with_slash (String c r) = false -> ends_with_slash r = false.
Proof. destruct r; [reflexivity | auto]. Qed.

Lemma normalizeBaseUrl_app_slashes (v : string) (k : nat) :
  ends_with_slash v = false ->
  normalizeBaseUrl (String.append v (slashes k)) = v.
Proof.
  induction v as [|c r IH]; intros H.
  - destruct k as [|k]; [reflexivity|].
    cbn [String.append]. change (slashes (S k)) with (String "/"%char (slashes k)).
    rewrite normalizeBaseUrl_cons.
    change (String "/"%char (slashes k)) with (slashes (S k)).
    now rewrite slashes_to_end_slashes.
  - cbn [String.append]. rewrite normalizeBaseUrl_cons.
    destruct (slashes_to_end (String c (String.append r (slashes k)))) eqn:E.
    + exfalso. apply slashes_to_end_inv in E as [n E].
      cbn [slashes] in E. injection E as -> E.
      apply prefix_of_slashes in E as [m ->].
      change (String "/"%char (slashes m)) with (slashes (S m)) in H.
      rewrite ends_with_slash_slashes in H. discriminate.
    + f_equal. apply IH. now apply ends_with_slash_tail with c.
Qed.

Lemma normalizeBaseUrl_decompose (u : string) :
  exists n : nat,
    u = String.append (normalizeBaseUrl u) (slashes n) /\
    ends_with_slash (normalizeBaseUrl u) = false.
Proof.
  induction u as [|c r IH]; [now exists 0|].
  rewrite normalizeBaseUrl_cons.
  destruct (slashes_to_end (String c r)) eqn:E.
  - apply slashes_to_end_inv in E as [n ->]. now exists (S n).
  - destruct IH as [n [Hr He]]. exists n. split.
    + cbn [String.append]. now rewrite <- Hr.
    + destruct (normalizeBaseUrl r) as [|d r'] eqn:En; [|exact He].
      cbn [String.append] in Hr. subst r. cbn [ends_with_slash].
      destruct (Ascii.eqb c "/"%char) eqn:Ec; [|reflexivity].
      apply Ascii.eqb_eq in Ec. subst c.
      change (String "/"%char (slashes n)) with (slashes (S n)) in E.
      rewrite slashes_to_end_slashes in E. discriminate.
Qed.

(** X: [normalizeBaseUrl] removes the trailing slashes and nothing else: the
    URL is the result followed by slashes only, and the result does not end
    with a slash. *)
Theorem normalizeBaseUrl_strips_trailing_slashes (url : string) :
  exists n : nat,
    url = String.append (normalizeBaseUrl url) (slashes n) /\
    ends_with_slash (normalizeBaseUrl url) = false.
Proof. apply normalizeBaseUrl_decompose. Qed.

(** X: the number of slashes that end the configured URL does not matter:
    adding any number of them gives the same base. *)
Theorem normalizeBaseUrl_ignores_trailing_slashes (url : string) (n : nat) :
  normalizeBaseUrl (String.append url (slashes n)) = normalizeBaseUrl url.
Proof.
  destruct (normalizeBaseUrl_decompose url) as [m [E H]].
  rewrite E at 1. rewrite append_assoc, slashes_add.
  now apply normalizeBaseUrl_app_slashes.
Qed.

(** X: [normalizeBaseUrl] is idempotent, and a URL that does not end with a
    slash is returned as it is. *)
Theorem normalizeBaseUrl_idempotent (url : string) :
  normalizeBaseUrl (normalizeBaseUrl url) = normalizeBaseUrl url /\
  (ends_with_slash url = false -> normalizeBaseUrl url = url).
Proof.
  assert (F : forall v, ends_with_slash v = false -> normalizeBaseUrl v = v).
  { intros v H. rewrite <- (append_empty_r v) at 1.
    now apply (normalizeBaseUrl_app_slashes v 0). }
  split; [|apply F].
  destruct (normalizeBaseUrl_decompose url) as [_ [_ H]]. now apply F.
Qed.

Lemma normalizeBaseUrl_idempotent_witness :
  ends_with_slash "http://localhost:3001" = false /\
  normalizeBaseUrl "http://localhost:3001" = "http://localhost:3001".
Proof.
  split; [reflexivity|].
  apply (proj2 (normalizeBaseUrl_idempotent "http://localhost:3001")).
  reflexivity.
Defined.


(** ** Authentication store *)

Section AuthStoreFacts.

Context {User : Type}.
Variable idb_fails : nat -> idb_op -> bool.
Variable user_truthy : User -> bool.

Ltac idb_unfold :=
  unfold isAuthenticated, getAuthToken, getUserData, setAuthToken,
    clearAuthToken, setUserData, clearUserData, clearAllAuthData,
    getAuthData, user_or_null, store_get, store_put, store_delete, openDB,
    idb_request,
    idb_write, idb_log, eff_await_or, eff_catch, eff_bind, eff_ret,
    eff_throw in *.

Ltac idb_cases :=
  repeat (cbn in *;
          match goal with
          | |- context [if idb_fails ?n ?op then _ else _] =>
              destruct (idb_fails n op) eqn:?
          | |- context [match auth_entry ?st with _ => _ end] =>
              destruct (auth_entry st) eqn:?
          end); cbn in *.

(** X: [getAuthToken] and [getUserData] never reject and never write: when
    opening the database or reading the entry fails they resolve to [null],
    and the stored entry is as it was. *)
Theorem auth_getters_never_reject (st : idb User) :
  (exists t, fst (getAuthToken idb_fails st) = Normal t) /\
  (exists u, fst (getUserData idb_fails user_truthy st) = Normal u) /\
  auth_entry (snd (getAuthToken idb_fails st)) = auth_entry st /\
  auth_entry (snd (getUserData idb_fails user_truthy st)) = auth_entry st /\
  (idb_fails (idb_ops st) IdbOpen = true \/
   idb_fails (S (idb_ops st)) IdbGet = true ->
   fst (getAuthToken idb_fails st) = Normal None /\
   fst (getUserData idb_fails user_truthy st) = Normal None).
Proof.
  idb_unfold. split; [|split; [|split; [|split]]].
  - idb_cases; eauto.
  - idb_cases; eauto.
  - idb_cases; auto.
  - idb_cases; auto.
  - intros [H|H]; split; idb_cases; auto; congruence.
Qed.

(** X: on a database whose requests succeed, [setAuthToken(t)] resolves,
    [getAuthToken] then gives [t] back -- or [null] when [t] is the empty
    string -- and the stored user is the one that was there. *)
Theorem token_round_trip (t : string) (st : idb User) :
  (forall n op, idb_fails n op = false) ->
  fst (setAuthToken idb_fails t st) = Normal tt /\
  fst (getAuthToken idb_fails (snd (setAuthToken idb_fails t st))) =
    Normal (if truthy t then Some t else None) /\
  fst (getUserData idb_fails user_truthy (snd (setAuthToken idb_fails t st))) =
    fst (getUserData idb_fails user_truthy st).
Proof.
  intros H. idb_unfold. repeat (progress (rewrite ?H; cbn)).
  destruct (auth_entry st); cbn; auto.
Qed.

(** X: on a database whose requests succeed, clearing one field keeps the
    other: after [clearAuthToken] the token reads [null] and the user is as
    before; after [clearUserData] the user reads [null] and the token is as
    before. *)
Theorem clearing_one_field_keeps_the_other (st : idb User) :
  (forall n op, idb_fails n op = false) ->
  fst (getAuthToken idb_fails (snd (clearAuthToken idb_fails st))) =
    Normal None /\
  fst (getUserData idb_fails user_truthy (snd (clearAuthToken idb_fails st))) =
    fst (getUserData idb_fails user_truthy st) /\
  fst (getUserData idb_fails user_truthy (snd (clearUserData idb_fails st))) =
    Normal None /\
  fst (getAuthToken idb_fails (snd (clearUserData idb_fails st))) =
    fst (getAuthToken idb_fails st).
Proof.
  intros H. idb_unfold. repeat (progress (rewrite ?H; cbn)).
  destruct (auth_entry st); cbn; auto.
Qed.

(** X: on a database whose requests succeed, after [clearAllAuthData] the
    token and the user both read [null] and [isAuthenticated] is false. *)
Theorem clearAllAuthData_forgets (st : idb User) :
  (forall n op, idb_fails n op = false) ->
  fst (getAuthToken idb_fails (snd (clearAllAuthData idb_fails st))) =
    Normal None /\
  fst (getUserData idb_fails user_truthy (snd (clearAllAuthData idb_fails st))) =
    Normal None /\
  fst (isAuthenticated idb_fails (snd (clearAllAuthData idb_fails st))) =
    Normal false.
Proof.
  intros H. idb_unfold. repeat (progress (rewrite ?H; cbn)). auto.
Qed.

(** X: how [setAuthToken] fails.  If the database cannot be opened it
    resolves and writes nothing.  If it rejects, nothing was written.  But if
    its own open succeeds, the open inside [getAuthData] fails and the write
    succeeds, the entry written holds the token and no user: the stored user
    is lost. *)
Theorem setAuthToken_failure_modes (t : string) (st : idb User) :
  (idb_fails (idb_ops st) IdbOpen = true ->
   fst (setAuthToken idb_fails t st) = Normal tt /\
   auth_entry (snd (setAuthToken idb_fails t st)) = auth_entry st) /\
  (fst (setAuthToken idb_fails t st) = Thrown ->
   auth_entry (snd (setAuthToken idb_fails t st)) = auth_entry st) /\
  (idb_fails (idb_ops st) IdbOpen = false ->
   idb_fails (S (idb_ops st)) IdbOpen = true ->
   idb_fails (S (S (idb_ops st))) IdbPut = false ->
   auth_entry (snd (setAuthToken idb_fails t st)) =
     Some {| token := Some t; user := None |}).
Proof.
  idb_unfold. split; [|split].
  - intros H. rewrite H. split; reflexivity.
  - idb_cases; auto; discriminate.
  - intros H1 H2 H3. rewrite H1. cbn. rewrite H2. cbn. rewrite H3. reflexivity.
Qed.

End AuthStoreFacts.

(** A stored session used in the scenarios. *)
Lemma token_round_trip_witness :
  (forall n op, idb_reliable n op = false) /\
  fst (getAuthToken idb_reliable
         (snd (setAuthToken idb_reliable "abc"
                 {| auth_entry := Some {| token := None; user := Some "ann" |};
                    idb_ops := 0; idb_console := [] |}))) =
    Normal (Some "abc").
Proof.
  assert (H : forall n op, idb_reliable n op = false) by reflexivity.
  split; [exact H|].
  exact (proj1 (proj2 (token_round_trip idb_reliable truthy "abc"
                         {| auth_entry :=
                              Some {| token := None; user := Some "ann" |};
                            idb_ops := 0; idb_console := [] |} H))).
Defined.

Lemma auth_getters_never_reject_witness :
  fst (getAuthToken (fun _ _ => true)
         {| auth_entry := Some {| token := Some "abc"; user := Some "ann" |};
            idb_ops := 0; idb_console := [] |}) = Normal None /\
  fst (getUserData (fun _ _ => true) truthy
         {| auth_entry := Some {| token := Some "abc"; user := Some "ann" |};
            idb_ops := 0; idb_console := [] |}) = Normal None.
Proof.
  apply (proj2 (proj2 (proj2 (proj2
           (auth_getters_never_reject (fun _ _ => true) truthy
              {| auth_entry :=
                   Some {| token := Some "abc"; user := Some "ann" |};
                 idb_ops := 0; idb_console := [] |}))))).
  left. reflexivity.
Defined.

Lemma clearing_one_field_keeps_the_other_witness :
  fst (getUserData idb_reliable truthy
         (snd (clearAuthToken idb_reliable
                 {| auth_entry :=
                      Some {| token := Some "abc"; user := Some "ann" |};
                    idb_ops := 0; idb_console := [] |}))) =
    Normal (Some "ann").
Proof.
  assert (H : forall n op, idb_reliable n op = false) by reflexivity.
  exact (proj1 (proj2 (clearing_one_field_keeps_the_other idb_reliable truthy
                         {| auth_entry :=
                              Some {| token := Some "abc";
                                      user := Some "ann" |};
                            idb_ops := 0; idb_console := [] |} H))).
Defined.

Lemma clearAllAuthData_forgets_witness :
  fst (isAuthenticated idb_reliable
         (snd (clearAllAuthData idb_reliable
                 {| auth_entry :=
                      Some {| token := Some "abc"; user := Some "ann" |};
                    idb_ops := 0; idb_console := [] |}))) =
    Normal false.
Proof.
  assert (H : forall n op, idb_reliable n op = false) by reflexivity.
  exact (proj2 (proj2 (clearAllAuthData_forgets idb_reliable truthy
                         {| auth_entry :=
                              Some {| token := Some "abc";
                                      user := Some "ann" |};
                            idb_ops := 0; idb_console := [] |} H))).
Defined.

Lemma setAuthToken_failure_modes_witness :
  auth_entry
    (snd (setAuthToken (fun n _ => n =? 1) "xyz"
            {| auth_entry :=
                 Some {| token := Some "abc"; user := Some "ann" |};
               idb_ops := 0; idb_console := [] |})) =
    Some {| token := Some "xyz"; user := None |}.
Proof.
  apply (proj2 (proj2 (setAuthToken_failure_modes (fun n _ => n =? 1) "xyz"
                         {| auth_entry :=
                              Some {| token := Some "abc";
                                      user := Some "ann" |};
                            idb_ops := 0; idb_console := [] |})));
    reflexivity.
Defined.


(** ** Local storage *)

Section StorageFacts.

Context {ShoppingItem SavedRecipe : Type}.
Variable recipe_id : SavedRecipe -> string.
Variable stringify_items : list ShoppingItem -> string.
Variable parse_items : string -> option (list ShoppingItem).
Variable stringify_recipes : list SavedRecipe -> string.
Variable parse_recipes : string -> option (list SavedRecipe).
Variable ls_throws : nat -> bool.

(** [JSON.parse] undoes [JSON.stringify], and the text of an array is not
    empty. *)
Hypothesis items_round_trip :
  forall l, parse_items (stringify_items l) = Some l.
Hypothesis items_text_not_empty :
  forall l, truthy (stringify_items l) = true.
Hypothesis recipes_round_trip :
  forall l, parse_recipes (stringify_recipes l) = Some l.
Hypothesis recipes_text_not_empty :
  forall l, truthy (stringify_recipes l) = true.

Local Abbreviation loadRecipes' := (loadRecipes parse_recipes ls_throws).
Local Abbreviation saveRecipe' :=
  (saveRecipe stringify_recipes parse_recipes ls_throws).
Local Abbreviation deleteRecipe' :=
  (deleteRecipe recipe_id stringify_recipes parse_recipes ls_throws).
Local Abbreviation loadCurrentList' := (loadCurrentList parse_items ls_throws).
Local Abbreviation saveCurrentList' :=
  (saveCurrentList stringify_items ls_throws).
Local Abbreviation clearStorage' := (clearStorage ls_throws).

Ltac ls_unfold :=
  unfold storage_step, saveRecipe, deleteRecipe, saveCurrentList,
    clearStorage, loadRecipes, loadCurrentList, JSON_parse, getItem,
    setItem, removeItem, ls_access, ls_log, eff_await_or, eff_catch,
    eff_bind, eff_ret, eff_throw in *.

Ltac ls_case :=
  match goal with
  | |- context [if ls_throws ?n then _ else _] =>
      destruct (ls_throws n) eqn:?
  | |- context [match ls_items ?st ?k with _ => _ end] =>
      destruct (ls_items st k) eqn:?
  | |- context [if truthy ?t then _ else _] => destruct (truthy t) eqn:?
  | |- context [match parse_recipes ?t with _ => _ end] =>
      destruct (parse_recipes t) eqn:?
  | |- context [match parse_items ?t with _ => _ end] =>
      destruct (parse_items t) eqn:?
  end.

Ltac ls_cases := repeat (cbn in *; ls_case); cbn in *.

(** Reading never changes the items. *)
Lemma loadRecipes_items (st : local_storage) :
  ls_items (snd (loadRecipes' st)) = ls_items st.
Proof. ls_unfold. ls_cases; reflexivity. Qed.

(** What [loadRecipes] returns when the read does not throw. *)
Lemma loadRecipes_value (st : local_storage) :
  ls_throws (ls_ops st) = false ->
  fst (loadRecipes' st) =
  Normal (match ls_items st SAVED_RECIPES with
          | Some t =>
              if truthy t
              then match parse_recipes t with Some l => l | None => [] end
              else []
          | None => []
          end).
Proof. intros H. ls_unfold. rewrite H. ls_cases; reflexivity. Qed.

Lemma loadRecipes_thrown (st : local_storage) :
  ls_throws (ls_ops st) = true -> fst (loadRecipes' st) = Normal [].
Proof. intros H. ls_unfold. now rewrite H. Qed.

Lemma loadCurrentList_value (st : local_storage) :
  ls_throws (ls_ops st) = false ->
  fst (loadCurrentList' st) =
  Normal (match ls_items st CURRENT_LIST with
          | Some t => if truthy t then parse_items t else None
          | None => None
          end).
Proof. intros H. ls_unfold. rewrite H. ls_cases; reflexivity. Qed.

Lemma loadCurrentList_thrown (st : local_storage) :
  ls_throws (ls_ops st) = true -> fst (loadCurrentList' st) = Normal None.
Proof. intros H. ls_unfold. now rewrite H. Qed.

Lemma loadRecipes_returns (st : local_storage) :
  exists l, fst (loadRecipes' st) = Normal l.
Proof. ls_unfold. ls_cases; eauto. Qed.

(** X: the loaders never throw.  [loadRecipes] answers the empty list, and
    [loadCurrentList] answers [null], when the key is absent, when its text
    is empty or does not parse, and when [localStorage] itself throws. *)
Theorem loaders_never_throw (st : local_storage) :
  (exists l, fst (loadRecipes' st) = Normal l) /\
  (exists o, fst (loadCurrentList' st) = Normal o) /\
  (ls_throws (ls_ops st) = true \/
   ls_items st SAVED_RECIPES = None \/
   ls_items st SAVED_RECIPES = Some "" \/
   (exists t, ls_items st SAVED_RECIPES = Some t /\ parse_recipes t = None) ->
   fst (loadRecipes' st) = Normal []) /\
  (ls_throws (ls_ops st) = true \/
   ls_items st CURRENT_LIST = None \/
   ls_items st CURRENT_LIST = Some "" \/
   (exists t, ls_items st CURRENT_LIST = Some t /\ parse_items t = None) ->
   fst (loadCurrentList' st) = Normal None).
Proof.
  split; [apply loadRecipes_returns|]. split; [|split].
  - ls_unfold. ls_cases; eauto.
  - intros H. destruct (ls_throws (ls_ops st)) eqn:E;
      [now apply loadRecipes_thrown|].
    rewrite loadRecipes_value by exact E.
    destruct H as [H|[H|[H|[t [H1 H2]]]]]; [discriminate| | |];
      rewrite ?H, ?H1; cbn; rewrite ?H2; [reflexivity..|].
    now destruct (truthy t).
  - intros H. destruct (ls_throws (ls_ops st)) eqn:E;
      [now apply loadCurrentList_thrown|].
    rewrite loadCurrentList_value by exact E.
    destruct H as [H|[H|[H|[t [H1 H2]]]]]; [discriminate| | |];
      rewrite ?H, ?H1; cbn; rewrite ?H2; [reflexivity..|].
    now destruct (truthy t).
Qed.

(** X: on a storage that does not throw and whose recipes item is absent,
    empty, unparseable or the text of an array of recipes, [saveRecipe] puts
    the recipe in front of the saved ones and keeps the first ten:
    [loadRecipes] then answers the new recipe followed by the nine most
    recent old ones. *)
Theorem saveRecipe_newest_first (r : SavedRecipe) (l : list SavedRecipe)
        (st : local_storage) :
  (forall n, ls_throws n = false) ->
  recipes_item_ok stringify_recipes parse_recipes st ->
  fst (loadRecipes' st) = Normal l ->
  fst (loadRecipes' (snd (saveRecipe' r st))) = Normal (firstn 10 (r :: l)).
Proof.
  intros H _ Hl. rewrite loadRecipes_value in Hl by apply H.
  injection Hl as Hl.
  rewrite loadRecipes_value by apply H.
  ls_unfold. rewrite !H. cbn.
  destruct (ls_items st SAVED_RECIPES) as [t|]; cbn;
    [destruct (truthy t); cbn; [destruct (parse_recipes t); cbn|]|];
    rewrite ?H; cbn;
    rewrite recipes_text_not_empty, recipes_round_trip; now subst.
Qed.

(** X: on a storage that does not throw and whose recipes item is absent,
    empty, unparseable or the text of an array of recipes, [deleteRecipe]
    removes every saved recipe with the given id and keeps the others in
    their order. *)
Theorem deleteRecipe_removes (i : string) (l : list SavedRecipe)
        (st : local_storage) :
  (forall n, ls_throws n = false) ->
  recipes_item_ok stringify_recipes parse_recipes st ->
  fst (loadRecipes' st) = Normal l ->
  fst (loadRecipes' (snd (deleteRecipe' i st))) =
    Normal (filter (fun r => negb (recipe_id r =? i)%string) l).
Proof.
  intros H _ Hl. rewrite loadRecipes_value in Hl by apply H.
  injection Hl as Hl.
  rewrite loadRecipes_value by apply H.
  ls_unfold. rewrite !H. cbn.
  destruct (ls_items st SAVED_RECIPES) as [t|]; cbn;
    [destruct (truthy t); cbn; [destruct (parse_recipes t); cbn|]|];
    rewrite ?H; cbn;
    rewrite recipes_text_not_empty, recipes_round_trip; now subst.
Qed.

(** X: on a storage that does not throw, [loadCurrentList] gives back the
    list [saveCurrentList] saved. *)
Theorem current_list_round_trip (items : list ShoppingItem)
        (st : local_storage) :
  (forall n, ls_throws n = false) ->
  fst (loadCurrentList' (snd (saveCurrentList' items st))) =
    Normal (Some items).
Proof.
  intros H. ls_unfold. repeat (progress (rewrite ?H; cbn)).
  now rewrite items_text_not_empty, items_round_trip.
Qed.

Lemma other_keys_untouched (items : list ShoppingItem) (r : SavedRecipe)
      (i : string) (st : local_storage) :
  ls_items (snd (saveCurrentList' items st)) SAVED_RECIPES =
    ls_items st SAVED_RECIPES /\
  ls_items (snd (saveRecipe' r st)) CURRENT_LIST =
    ls_items st CURRENT_LIST /\
  ls_items (snd (deleteRecipe' i st)) CURRENT_LIST =
    ls_items st CURRENT_LIST.
Proof.
  ls_unfold. repeat split; ls_cases; reflexivity.
Qed.

(** X: the keys do not interfere.  Saving the current list leaves the item
    under the recipes key as it is, and saving or deleting a recipe leaves
    the item under the current-list key as it is, whether or not the storage
    throws. *)
Theorem keys_do_not_interfere (items : list ShoppingItem) (r : SavedRecipe)
        (i : string) (st : local_storage) :
  ls_items (snd (saveCurrentList' items st)) SAVED_RECIPES =
    ls_items st SAVED_RECIPES /\
  ls_items (snd (saveRecipe' r st)) CURRENT_LIST =
    ls_items st CURRENT_LIST /\
  ls_items (snd (deleteRecipe' i st)) CURRENT_LIST =
    ls_items st CURRENT_LIST.
Proof. apply other_keys_untouched. Qed.

(** X: on a storage that does not throw, after [clearStorage] the three keys
    are absent: [loadRecipes] answers the empty list and [loadCurrentList]
    answers [null]. *)
Theorem clearStorage_empties (st : local_storage) :
  (forall n, ls_throws n = false) ->
  ls_items (snd (clearStorage' st)) CURRENT_LIST = None /\
  ls_items (snd (clearStorage' st)) HISTORY = None /\
  ls_items (snd (clearStorage' st)) SAVED_RECIPES = None /\
  fst (loadRecipes' (snd (clearStorage' st))) = Normal [] /\
  fst (loadCurrentList' (snd (clearStorage' st))) = Normal None.
Proof.
  intros H. ls_unfold. repeat (progress (rewrite ?H; cbn)). auto.
Qed.

Local Abbreviation capped := (recipes_capped stringify_recipes).
Local Abbreviation storage_step' :=
  (storage_step recipe_id stringify_items stringify_recipes parse_recipes
                ls_throws).
Local Abbreviation storage_run' :=
  (storage_run recipe_id stringify_items stringify_recipes parse_recipes
               ls_throws).

Lemma loadRecipes_capped (st : local_storage) (l : list SavedRecipe) :
  capped st -> fst (loadRecipes' st) = Normal l -> length l <= 10.
Proof.
  intros Hc Hl. destruct (ls_throws (ls_ops st)) eqn:E.
  - rewrite loadRecipes_thrown in Hl by exact E. injection Hl as <-. cbn. lia.
  - rewrite loadRecipes_value in Hl by exact E. injection Hl as <-.
    destruct Hc as [->|[l0 [-> H0]]]; [cbn; lia|].
    destruct (truthy (stringify_recipes l0)); [|cbn; lia].
    now rewrite recipes_round_trip.
Qed.

Lemma write_recipes_capped (l : list SavedRecipe) (line : string)
      (st : local_storage) :
  capped st ->
  length l <= 10 ->
  capped (snd (eff_catch (setItem ls_throws SAVED_RECIPES
                            (stringify_recipes l))
                         (ls_log line) st)).
Proof.
  intros Hc Hl. unfold recipes_capped in *.
  unfold eff_catch, setItem, ls_access, ls_log, eff_bind.
  destruct (ls_throws (ls_ops st)); cbn; [exact Hc|].
  right. now exists l.
Qed.

Lemma after_loadRecipes (st : local_storage) :
  exists l st1,
    loadRecipes' st = (Normal l, st1) /\ ls_items st1 = ls_items st.
Proof.
  pose proof (loadRecipes_items st) as Hi.
  destruct (loadRecipes_returns st) as [l Hl].
  destruct (loadRecipes' st) as [c st1]. cbn in *. subst c.
  now exists l, st1.
Qed.

Lemma storage_step_capped (c : storage_call) (st : local_storage) :
  capped st -> capped (snd (storage_step' c st)).
Proof.
  intros Hc. destruct c as [items|r|i|]; cbn [storage_step].
  - unfold recipes_capped in *.
    assert (E : ls_items (snd (saveCurrentList' items st)) SAVED_RECIPES =
                ls_items st SAVED_RECIPES)
      by (ls_unfold; ls_cases; reflexivity).
    now rewrite E.
  - destruct (after_loadRecipes st) as (l & st1 & E & Ei).
    assert (Hl : length l <= 10)
      by (apply (loadRecipes_capped st); [exact Hc | now rewrite E]).
    assert (Hc1 : capped st1) by (unfold recipes_capped in *; now rewrite Ei).
    pose proof (write_recipes_capped (firstn 10 (r :: l))
                  "Failed to save recipe to localStorage:" st1 Hc1) as W.
    unfold saveRecipe, eff_catch, eff_bind in *. rewrite E.
    apply W. rewrite length_firstn. lia.
  - destruct (after_loadRecipes st) as (l & st1 & E & Ei).
    assert (Hl : length l <= 10)
      by (apply (loadRecipes_capped st); [exact Hc | now rewrite E]).
    assert (Hc1 : capped st1) by (unfold recipes_capped in *; now rewrite Ei).
    pose proof (write_recipes_capped
                  (filter (fun r => negb (recipe_id r =? i)%string) l)
                  "Failed to delete recipe from localStorage:" st1 Hc1) as W.
    unfold deleteRecipe, eff_catch, eff_bind in *. rewrite E.
    apply W. pose proof (filter_length_le
                           (fun r => negb (recipe_id r =? i)%string) l). lia.
  - unfold recipes_capped in *. ls_unfold.
    ls_cases; auto.
Qed.

Lemma storage_run_capped (cs : list storage_call) (st : local_storage) :
  capped st -> capped (storage_run' cs st).
Proof.
  revert st. induction cs as [|c cs IH]; intros st Hc; [exact Hc|].
  cbn [storage_run fold_left]. apply IH. now apply storage_step_capped.
Qed.

(** X: the recipe store never holds more than ten recipes.  From an empty
    storage, after any calls of [saveCurrentList], [saveRecipe],
    [deleteRecipe] and [clearStorage], some of which may have failed because
    the storage threw, [loadRecipes] answers at most ten recipes. *)
Theorem recipes_never_exceed_ten (cs : list storage_call)
        (l : list SavedRecipe) :
  fst (loadRecipes' (storage_run' cs ls_empty)) = Normal l ->
  length l <= 10.
Proof.
  apply loadRecipes_capped, storage_run_capped. now left.
Qed.

End StorageFacts.

Lemma bits_round_trip (l : list bool) : bits_parse (bits_stringify l) = Some l.
Proof.
  unfold bits_parse, bits_stringify. cbn. f_equal.
  induction l as [|b l IH]; [reflexivity|].
  cbn. rewrite IH. now destruct b.
Qed.

Lemma bits_text_not_empty (l : list bool) : truthy (bits_stringify l) = true.
Proof. reflexivity. Qed.

Lemma ls_reliable_never_throws (n : nat) : ls_reliable n = false.
Proof. reflexivity. Qed.

Lemma loaders_never_throw_witness :
  fst (loadRecipes bits_parse ls_reliable
         {| ls_items := fun k => if (k =? SAVED_RECIPES)%string
                                 then Some "{oops" else None;
            ls_ops := 0; ls_console := [] |}) = Normal [] /\
  fst (loadCurrentList bits_parse (fun _ => true) ls_empty) = Normal None.
Proof.
  split.
  - apply (proj1 (proj2 (proj2
             (@loaders_never_throw bool bool bits_parse bits_parse
                ls_reliable
                {| ls_items := fun k => if (k =? SAVED_RECIPES)%string
                                        then Some "{oops" else None;
                   ls_ops := 0; ls_console := [] |})))).
    right. right. right. exists "{oops". split; reflexivity.
  - apply (proj2 (proj2 (proj2
             (@loaders_never_throw bool bool bits_parse bits_parse
                (fun _ => true) ls_empty)))).
    left. reflexivity.
Defined.

Lemma saveRecipe_newest_first_witness :
  fst (loadRecipes bits_parse ls_reliable
         (snd (saveRecipe bits_stringify bits_parse ls_reliable false
                 {| ls_items := fun k => if (k =? SAVED_RECIPES)%string
                                         then Some "[1101010101" else None;
                    ls_ops := 0; ls_console := [] |}))) =
    Normal [false; true; true; false; true; false; true; false; true; false].
Proof.
  apply (@saveRecipe_newest_first bool bits_stringify bits_parse ls_reliable
           bits_round_trip bits_text_not_empty false
           [true; true; false; true; false; true; false; true; false; true]
           {| ls_items := fun k => if (k =? SAVED_RECIPES)%string
                                   then Some "[1101010101" else None;
              ls_ops := 0; ls_console := [] |}
           ls_reliable_never_throws).
  - right. right. right.
    exists [true; true; false; true; false; true; false; true; false; true].
    reflexivity.
  - reflexivity.
Defined.

Lemma deleteRecipe_removes_witness :
  fst (loadRecipes bits_parse ls_reliable
         (snd (deleteRecipe bit_id bits_stringify bits_parse ls_reliable
                 "yes"
                 {| ls_items := fun k => if (k =? SAVED_RECIPES)%string
                                         then Some "[101" else None;
                    ls_ops := 0; ls_console := [] |}))) =
    Normal [false].
Proof.
  apply (@deleteRecipe_removes bool bit_id bits_stringify bits_parse
           ls_reliable bits_round_trip bits_text_not_empty "yes"
           [true; false; true]
           {| ls_items := fun k => if (k =? SAVED_RECIPES)%string
                                   then Some "[101" else None;
              ls_ops := 0; ls_console := [] |}
           ls_reliable_never_throws).
  - right. right. right. exists [true; false; true]. reflexivity.
  - reflexivity.
Defined.

Lemma current_list_round_trip_witness :
  fst (loadCurrentList bits_parse ls_reliable
         (snd (saveCurrentList bits_stringify ls_reliable [true; false]
                 ls_empty))) =
    Normal (Some [true; false]).
Proof.
  exact (@current_list_round_trip bool bits_stringify bits_parse ls_reliable
           bits_round_trip bits_text_not_empty [true; false] ls_empty
           ls_reliable_never_throws).
Defined.

Lemma clearStorage_empties_witness :
  fst (loadRecipes bits_parse ls_reliable
         (snd (clearStorage ls_reliable
                 {| ls_items := fun k => if (k =? SAVED_RECIPES)%string
                                         then Some "[101" else None;
                    ls_ops := 0; ls_console := [] |}))) = Normal [].
Proof.
  exact (proj1 (proj2 (proj2 (proj2
           (@clearStorage_empties bool bool bits_parse bits_parse ls_reliable
              {| ls_items := fun k => if (k =? SAVED_RECIPES)%string
                                      then Some "[101" else None;
                 ls_ops := 0; ls_console := [] |}
              ls_reliable_never_throws))))).
Defined.

Lemma recipes_never_exceed_ten_witness :
  length (repeat true 10) <= 10.
Proof.
  apply (@recipes_never_exceed_ten bool bool bit_id bits_stringify
           bits_stringify bits_parse ls_reliable bits_round_trip
           (map SaveRecipe (repeat true 12)) (repeat true 10)).
  vm_compute. reflexivity.
Defined.

